(** * anydisplay: the Canvas rasteriser and its Pixel Sinks

    A shallow embedding of [anydisplay/__init__.py]: the [Display] base
    class, [NullDisplay], and [Canvas] with its [clear], [set] and
    [set_image] methods.

    Numbers.  Python's [float] and numpy's [float64] are embedded as exact
    rationals ([Q]); Python's [int] is [Z], injected with [inject_Z] where
    the source mixes the two.  Rounding error, infinities and NaN are
    therefore outside this model: every statement below is about the
    comparisons and the algebra of the source, evaluated exactly.  Results
    on [Q] are stated up to [==] where the source computes them, and with
    [=] where the source leaves an object untouched.

    The last part of the file, on single draws, says which cell a draw
    reaches only at scale 1 and with integer coordinates below [2 ^ 52]:
    a scale such as [4 / 49] is rounded by [float64], and the source then
    tests a product that is not the rational one, whereas at scale 1 it
    tests what the embedding tests.  The part on the [_PIL] display has
    the infinities and NaN as colour channels. *)

From Stdlib Require Import ZArith QArith Qround Qabs Lqa Lia Bool.
From stdpp Require Import base list.

Local Open Scope Q_scope.

(** ** Python primitives on numbers *)

Module Py.

(** [a < b] as a test. *)
Definition Qltb (a b : Q) : bool := negb (Qle_bool b a).

(** [int(x)] of a float: truncation towards zero. *)
Definition int (x : Q) : Z := Z.quot (Qnum x) (Zpos (Qden x)).

(** [min(a, b)]: the first argument unless the second is smaller. *)
Definition min (a b : Q) : Q := if Qltb b a then b else a.

(** [max(a, b)]: the first argument unless the second is greater. *)
Definition max (a b : Q) : Q := if Qltb a b then b else a.

(** [math.ceil(x)]. *)
Definition ceil (x : Q) : Z := Qceiling x.

(** [round(x)] with one argument: nearest integer, ties to even. *)
Definition round (x : Q) : Z :=
  let f := Qfloor x in
  let d := x - inject_Z f in
  if Qltb d (1 # 2) then f
  else if Qltb (1 # 2) d then (f + 1)%Z
  else if Z.even f then f else (f + 1)%Z.

(** [range(a, b)]. *)
Definition range (a b : Z) : list Z :=
  List.map (fun i => (a + Z.of_nat i)%Z) (seq 0 (Z.to_nat (b - a))).

(** Indexing an axis of length [n] of a numpy array with [i]: indices in
    [[-n, 0)] count from the end, anything outside [[-n, n)] raises
    [IndexError] (here [None]). *)
Definition np_index (n : nat) (i : Z) : option nat :=
  if (0 <=? i)%Z && (i <? Z.of_nat n)%Z then Some (Z.to_nat i)
  else if (- Z.of_nat n <=? i)%Z && (i <? 0)%Z then Some (Z.to_nat (i + Z.of_nat n))
  else None.

End Py.

(** ** Data model *)

(** One entry [canvas[x][y]] of the state buffer: [pixel[0..2]] are the
    colour, [pixel[3]] the fraction of the physical pixel painted so far. *)
Record Pixel : Type := mkPixel { pr : Q; pg : Q; pb : Q; pf : Q }.

Definition zero_pixel : Pixel := mkPixel 0 0 0 0.

(** Pixels holding the same four numbers. *)
Definition pixel_eq (p q : Pixel) : Prop :=
  pr p == pr q /\ pg p == pg q /\ pb p == pb q /\ pf p == pf q.

(** The calls a [Display] receives. *)
Inductive SinkCall : Type :=
| CallClear
| CallSet (x y : Z) (r g b : Q)
| CallShow.

(** The exceptions the modelled code raises. *)
Inductive Exn : Type :=
| ValueError_BadOrientation (orientation : Z)
| ValueError_BadWidth (width : Z)
| ValueError_BadHeight (height : Z)
| ValueError_BadImageDimensions (iw ih : Z)
| ValueError_NegativeDimensions
| IndexError.

(** The classes deriving from [Display], by what they do to
    [set_orientation]: [NullDisplay] overrides it with [pass];
    [_UnicornHat] calls the base method and then the device; the others
    ([_PIL] and its subclasses, [MAX7219], [RGBLEDMatrix], [SDL]) inherit
    the base method. *)
Inductive DisplayClass : Type :=
| NullDisplay
| UnicornHat
| Inheriting.

(** A [Display] object: [_orientation] of the base class, the shape its
    [get_shape] reports ([_width], [_height] for [NullDisplay]), and the
    calls it has received, oldest first. *)
Record Display : Type := mkDisplay {
  class_ : DisplayClass;
  _orientation : Z;
  _width : Z;
  _height : Z;
  calls : list SinkCall
}.

(** The [Canvas] object.  [_display] is the display it was given; the
    calls the canvas makes on it are recorded in its [calls]. *)
Record Canvas : Type := mkCanvas {
  _x_sz : Z;
  _y_sz : Z;
  _display : Display;
  _scale : Q;
  _canvas : list (list Pixel);
  _xwrap : bool;
  _ywrap : bool
}.

(** A PIL image as [set_image] uses it: [size] and [getpixel], for an
    image of three bands (mode RGB).  On an image of one band [getpixel]
    gives a number, and [rgb[0]] raises TypeError: such images are outside
    this embedding. *)
Record Image : Type := mkImage {
  size : Z * Z;
  getpixel : Z * Z -> Z * Z * Z
}.

(** ** Display *)

(** [Display.__init__] (lines 26-27). *)
Definition Display___init__ (c : DisplayClass) (width height : Z) : Display :=
  mkDisplay c 0 width height [].

Definition get_shape (d : Display) : Z * Z := (_width d, _height d).
Definition width (d : Display) : Z := fst (get_shape d).
Definition height (d : Display) : Z := snd (get_shape d).
Definition orientation (d : Display) : Z := _orientation d.

(** [orientation not in (0, 90, 180, 270)]. *)
Definition bad_orientation (o : Z) : bool :=
  negb ((o =? 0)%Z || (o =? 90)%Z || (o =? 180)%Z || (o =? 270)%Z).

(** [Display.set_orientation], the base-class method (lines 99-108): the
    outcome and the object after the call. *)
Definition Display_set_orientation (d : Display) (o : Z) : (Exn + unit) * Display :=
  if bad_orientation o then (inl (ValueError_BadOrientation o), d)
  else (inr tt, mkDisplay (class_ d) o (_width d) (_height d) (calls d)).

(** [NullDisplay.set_orientation] (lines 155-156): [pass]. *)
Definition NullDisplay_set_orientation (d : Display) (o : Z) : (Exn + unit) * Display :=
  (inr tt, d).

(** [set_orientation] as method lookup resolves it on an object.  The
    call [_UnicornHat] adds after the base method goes to the device
    library and is not part of the object's state. *)
Definition set_orientation (d : Display) (o : Z) : (Exn + unit) * Display :=
  match class_ d with
  | NullDisplay => NullDisplay_set_orientation d o
  | UnicornHat => Display_set_orientation d o
  | Inheriting => Display_set_orientation d o
  end.

(** [NullDisplay.__init__] (lines 145-148), on [int] arguments. *)
Definition NullDisplay___init__ (width height : Z) : Exn + Display :=
  inr (Display___init__ NullDisplay (Z.max 1 width) (Z.max 1 height)).

(** ** The monad of Canvas methods

    A method runs on the canvas object, may mutate it, and either returns
    or raises; what it mutated before raising stays mutated. *)

Definition M (A : Type) : Type := Canvas -> (Exn + A) * Canvas.

Definition ret {A} (a : A) : M A := fun c => (inr a, c).
Definition raise {A} (e : Exn) : M A := fun c => (inl e, c).
Definition bind {A B} (m : M A) (k : A -> M B) : M B :=
  fun c => match m c with
           | (inl e, c') => (inl e, c')
           | (inr a, c') => k a c'
           end.

Notation "x <- m ;; k" := (bind m (fun x => k))
  (at level 100, m at next level, right associativity).
Notation "m ;;; k" := (bind m (fun _ => k))
  (at level 100, right associativity).

(** [for i in l: body(i)]. *)
Fixpoint for_ (l : list Z) (body : Z -> M unit) : M unit :=
  match l with
  | [] => ret tt
  | i :: l' => body i ;;; for_ l' body
  end.

Definition with_canvas (f : list (list Pixel) -> list (list Pixel)) : M unit :=
  fun c => (inr tt, mkCanvas (_x_sz c) (_y_sz c) (_display c) (_scale c)
                             (f (_canvas c)) (_xwrap c) (_ywrap c)).

Definition with_display (f : Display -> Display) : M unit :=
  fun c => (inr tt, mkCanvas (_x_sz c) (_y_sz c) (f (_display c)) (_scale c)
                             (_canvas c) (_xwrap c) (_ywrap c)).

Definition send (call : SinkCall) (d : Display) : Display :=
  mkDisplay (class_ d) (_orientation d) (_width d) (_height d) (calls d ++ [call]).

(** [self._display.set(x, y, r, g, b)], [self._display.clear()] and
    [self._display.show()]: the call is recorded on the display and
    returns.  This is the [set] of [NullDisplay], which is [pass].  The
    [set] of a hardware display can raise: the ones of [MAX7219],
    [RGBLEDMatrix] and [SDL] go through [_orient], which reads
    [self._image] at 180 and 270 degrees and finds none
    ([Display__orient] below).  The statements of the last part, on
    what one draw returns and leaves behind, are made over a
    [NullDisplay]. *)
Definition display_set (x y : Z) (r g b : Q) : M unit :=
  with_display (send (CallSet x y r g b)).
Definition display_clear : M unit := with_display (send CallClear).
Definition display_show : M unit := with_display (send CallShow).

(** [canvas[px][py]], as positions in the buffer. *)
Definition locate (canvas : list (list Pixel)) (px py : Z) : option (nat * nat) :=
  match Py.np_index (length canvas) px with
  | None => None
  | Some i =>
      match canvas !! i with
      | None => None
      | Some col =>
          match Py.np_index (length col) py with
          | None => None
          | Some j => Some (i, j)
          end
      end
  end.

Definition read (canvas : list (list Pixel)) (ij : nat * nat) : Pixel :=
  match canvas !! fst ij with
  | Some col => default zero_pixel (col !! snd ij)
  | None => zero_pixel
  end.

Definition write (ij : nat * nat) (p : Pixel) (canvas : list (list Pixel))
  : list (list Pixel) :=
  alter (fun col => <[snd ij := p]> col) (fst ij) canvas.

Definition gets {A} (f : Canvas -> A) : M A := fun c => (inr (f c), c).

(** ** Canvas *)

(** [numpy.zeros(shape=(w, h, 4))]: numpy refuses a negative dimension. *)
Definition zeros (w h : Z) : Exn + list (list Pixel) :=
  if (w <? 0)%Z || (h <? 0)%Z then inl ValueError_NegativeDimensions
  else inr (replicate (Z.to_nat w) (replicate (Z.to_nat h) zero_pixel)).

(** [Canvas.__init__(display, width, height, xwrap, ywrap)] (lines
    188-225); [None] for an argument left at its default. *)
Definition Canvas___init__ (display : Display) (width_ height_ : option Z)
    (xwrap ywrap : bool) : Exn + Canvas :=
  let width_ := match width_ with None => width display | Some w => w end in
  let height_ := match height_ with None => height display | Some h => h end in
  if (width_ <=? 0)%Z then inl (ValueError_BadWidth width_)
  else if (height_ <=? 0)%Z then inl (ValueError_BadHeight height_)
  else
    let scale := Py.min (inject_Z (width display) / inject_Z width_)
                        (inject_Z (height display) / inject_Z height_) in
    match zeros (width display) (height display) with
    | inl e => inl e
    | inr canvas => inr (mkCanvas width_ height_ display scale canvas xwrap ywrap)
    end.

(** [Canvas.clear] (lines 244-249). *)
Definition Canvas_clear : M unit :=
  display_clear ;;;
  with_canvas (List.map (List.map (fun _ => zero_pixel))).

(** [r if 0 <= r <= 1 else min(max(0.0, r), 1.0)] (lines 294-296). *)
Definition clamp01 (r : Q) : Q :=
  if Qle_bool 0 r && Qle_bool r 1 then r else Py.min (Py.max 0 r) 1.

(** [v if v < 1.0 else 1.0], the clamp on storing (lines 359-362 and
    481-484). *)
Definition cap1 (v : Q) : Q := if Py.Qltb v 1 then v else 1.

(** The compositing rule (lines 334-362, and again 456-484): the blend
    of a draw of colour [(dr, dg, db)] covering [factor] of a pixel with
    what the pixel holds.  Returns the entry stored and the colour pushed
    to the display, which is the one before the clamp on storing. *)
Definition composite (factor dr dg db : Q) (pixel : Pixel) : Pixel * (Q * Q * Q) :=
  let pr := pr pixel in
  let pg := pg pixel in
  let pb := pb pixel in
  let pf := pf pixel in
  let factor1 := 1 - factor in
  let '(pr, pg, pb, pf) :=
    if Qeq_bool pf 0 || Qle_bool pf factor1 then
      (pr + factor * dr, pg + factor * dg, pb + factor * db, factor + pf)
    else
      let pfactor1 := factor1 / pf in
      (Py.min (pfactor1 * pr + factor * dr) 1,
       Py.min (pfactor1 * pg + factor * dg) 1,
       Py.min (pfactor1 * pb + factor * db) 1,
       1) in
  (mkPixel (cap1 pr) (cap1 pg) (cap1 pb) (cap1 pf), (pr, pg, pb)).

(** Blending into [canvas[px][py]] and pushing the result to the display
    (lines 444-487 of the loop, and the body of the sub-pixel branch,
    lines 322-365). *)
Definition blend (px py : Z) (factor dr dg db : Q) : M unit :=
  canvas <- gets _canvas ;;
  match locate canvas px py with
  | None => raise IndexError
  | Some ij =>
      let '(pixel, (pr, pg, pb)) := composite factor dr dg db (read canvas ij) in
      with_canvas (write ij pixel) ;;;
      display_set px py pr pg pb
  end.

(** The branch "remember and set everything directly" (lines 306-313). *)
Definition set_direct (dx dy : Z) (dr dg db : Q) : M unit :=
  canvas <- gets _canvas ;;
  match locate canvas dx dy with
  | None => raise IndexError
  | Some ij =>
      with_canvas (write ij (mkPixel dr dg db 1)) ;;;
      display_set dx dy dr dg db
  end.

(** [(l_off, r_off)] of a square of side [scale] (lines 380-388). *)
Definition offsets (scale : Q) : Q * Q :=
  let half := Py.max 0 ((scale - 1) / 2) in
  if negb (Z.land (Py.int scale) 1 =? 0)%Z then
    let l_off := inject_Z (Py.int half) in
    (l_off, scale - l_off)
  else
    let r_off := inject_Z (Py.int half) in
    (scale - r_off, r_off).

(** [area] of the loop body for the cell [(px, py)] (lines 408-412). *)
Definition cell_area (dxl dxr dyt dyb : Q) (px py : Z) : Q :=
  let cxl := Py.max dxl (inject_Z (px + 0)) in
  let cxr := Py.min dxr (inject_Z (px + 1)) in
  let cyt := Py.max dyt (inject_Z (py + 0)) in
  let cyb := Py.min dyb (inject_Z (py + 1)) in
  Qabs (cxr - cxl) * Qabs (cyb - cyt).

(** The noodling of one coordinate (lines 425-432 for [x], 433-440 for
    [y]): [None] is the [continue]. *)
Definition wrap_or_skip (p size : Z) (wrapping : bool) : option Z :=
  if (p <? 0)%Z || (p >=? size)%Z then
    if wrapping then
      if (p <? 0)%Z then Some (p + size)%Z else Some (p - size)%Z
    else None
  else Some p.

(** The body of the two loops (lines 399-487). *)
Definition paint_cell (width height : Z) (xwrap ywrap : bool)
    (dxl dxr dyt dyb dr dg db : Q) (px_ py_ : Z) : M unit :=
  let area := cell_area dxl dxr dyt dyb px_ py_ in
  let factor := area in
  if Qle_bool factor 0 then ret tt
  else
    let factor := if Py.Qltb 1 factor then 1 else factor in
    match wrap_or_skip px_ width xwrap with
    | None => ret tt
    | Some px =>
        match wrap_or_skip py_ height ywrap with
        | None => ret tt
        | Some py => blend px py factor dr dg db
        end
    end.

(** The last branch (lines 380-398): the fractional square around
    [(dx, dy)]. *)
Definition paint_square (width height : Z) (xwrap ywrap : bool)
    (dx dy dr dg db scale : Q) : M unit :=
  let '(l_off, r_off) := offsets scale in
  let dxl := dx - l_off in
  let dxr := dx + r_off in
  let dyt := dy - l_off in
  let dyb := dy + r_off in
  for_ (Py.range (Py.int dxl) (Py.int dxr + 1)) (fun px_ =>
    for_ (Py.range (Py.int dyt) (Py.int dyb + 1)) (fun py_ =>
      paint_cell width height xwrap ywrap dxl dxr dyt dyb dr dg db px_ py_)).

(** [Canvas.set(x, y, r, g, b, s)] (lines 252-487).  The debug logging
    is left out. *)
Definition Canvas_set (x y r g b s : Q) : M unit :=
  self <- gets id ;;
  let width := width (_display self) in
  let height := height (_display self) in
  let xwrap := _xwrap self in
  let ywrap := _ywrap self in
  let scale := s * _scale self in
  if Qle_bool scale 0 then ret tt
  else
    let dx := x * _scale self in
    let dy := y * _scale self in
    let dr := clamp01 r in
    let dg := clamp01 g in
    let db := clamp01 b in
    if Qeq_bool scale 1
       && Qeq_bool (inject_Z (Py.int dx)) dx && Qeq_bool (inject_Z (Py.int dy)) dy
       && (Qle_bool 0 dx && Py.Qltb dx (inject_Z width))
       && (Qle_bool 0 dy && Py.Qltb dy (inject_Z height))
    then set_direct (Py.int dx) (Py.int dy) dr dg db
    else if Py.Qltb scale 1
            && (Qle_bool 0 dx && Py.Qltb dx (inject_Z width))
            && (Qle_bool 0 dy && Py.Qltb dy (inject_Z height))
    then blend (Py.int dx) (Py.int dy) (scale ^ 2) dr dg db
    else paint_square width height xwrap ywrap dx dy dr dg db scale.

(** [Canvas.set_image(image)] (lines 490-530), on an image whose pixels
    are RGB triples. *)
Definition Canvas_set_image (image : Image) : M unit :=
  self <- gets id ;;
  let '(dw, dh) := get_shape (_display self) in
  let '(iw, ih) := size image in
  if (iw <=? 0)%Z || (ih <=? 0)%Z then raise (ValueError_BadImageDimensions iw ih)
  else
    let sw := inject_Z dw / inject_Z iw in
    let sh := inject_Z dh / inject_Z ih in
    let sz := Py.max sw sh in
    let sz := if Py.Qltb 1 sz then inject_Z (Py.ceil sz) else sz in
    for_ (Py.range 0 iw) (fun ix =>
      for_ (Py.range 0 ih) (fun iy =>
        let dx := Py.round (inject_Z ix * sw) in
        let dy := Py.round (inject_Z iy * sh) in
        let '(rgb0, rgb1, rgb2) := getpixel image (ix, iy) in
        Canvas_set (inject_Z dx) (inject_Z dy)
                   (inject_Z rgb0 / 255) (inject_Z rgb1 / 255) (inject_Z rgb2 / 255)
                   sz)).

(** [Canvas.show] (lines 533-537). *)
Definition Canvas_show : M unit := display_show.

(** ** Sequences of calls *)

Inductive Op : Type :=
| OpClear
| OpSet (x y r g b s : Q)
| OpSetImage (image : Image).

Definition run_op (o : Op) : M unit :=
  match o with
  | OpClear => Canvas_clear
  | OpSet x y r g b s => Canvas_set x y r g b s
  | OpSetImage image => Canvas_set_image image
  end.

(** The canvas after a sequence of calls; a caller that catches an
    exception goes on with the canvas as the failed call left it. *)
Definition run_ops (ops : list Op) (c : Canvas) : Canvas :=
  fold_left (fun c o => snd (run_op o c)) ops c.

(** What [canvas[x][y]] holds, for in-range [x] and [y]. *)
Definition pixel_at (c : Canvas) (x y : Z) : option Pixel :=
  match locate (_canvas c) x y with
  | Some ij => Some (read (_canvas c) ij)
  | None => None
  end.

(** * Predicates of the statements *)

(** ** Values in range *)

Definition in_unit (v : Q) : Prop := 0 <= v <= 1.

(** What the data model asks of a buffer entry: coverage and channels in
    [[0, 1]], and a black entry where nothing is painted. *)
Definition entry_ok (p : Pixel) : Prop :=
  in_unit (pf p) /\ in_unit (pr p) /\ in_unit (pg p) /\ in_unit (pb p) /\
  (pf p == 0 -> pr p == 0 /\ pg p == 0 /\ pb p == 0).

Definition channels_below_coverage (p : Pixel) : Prop :=
  pr p <= pf p /\ pg p <= pf p /\ pb p <= pf p.

(** The invariant the proofs carry: each channel lies between 0 and the
    coverage, and the coverage is at most 1.  It gives both [entry_ok] and
    [channels_below_coverage]. *)
Definition pixel_inv (p : Pixel) : Prop :=
  0 <= pr p <= pf p /\ 0 <= pg p <= pf p /\ 0 <= pb p <= pf p /\ pf p <= 1.

Definition buffer_inv (canvas : list (list Pixel)) : Prop :=
  Forall (Forall pixel_inv) canvas.

(** A colour with no channel above 1, and a call passing such a colour. *)
Definition colour_le1 (rgb : Q * Q * Q) : Prop :=
  fst (fst rgb) <= 1 /\ snd (fst rgb) <= 1 /\ snd rgb <= 1.

Definition call_le1 (k : SinkCall) : Prop :=
  match k with
  | CallSet _ _ r g b => colour_le1 (r, g, b)
  | _ => True
  end.

(** The buffer has the shape of the display. *)
Definition shape_inv (c : Canvas) : Prop :=
  length (_canvas c) = Z.to_nat (width (_display c)) /\
  Forall (fun col => length col = Z.to_nat (height (_display c))) (_canvas c).

(** [Inv old c]: every entry of the buffer meets [pixel_inv], the buffer
    has the display's shape, and the display has received, after the calls
    [old], only calls meeting [call_le1]. *)
Definition Inv (old : list SinkCall) (c : Canvas) : Prop :=
  buffer_inv (_canvas c) /\
  shape_inv c /\
  exists new, calls (_display c) = old ++ new /\ Forall call_le1 new.

(** ** Methods as state transformers *)

(** [m] keeps [I], whether it returns or raises. *)
Definition preserves {A} (I : Canvas -> Prop) (m : M A) : Prop :=
  forall c, I c -> I (snd (m c)).

(** [m] raises nothing but exceptions in [P]. *)
Definition raises_only {A} (P : Exn -> Prop) (m : M A) : Prop :=
  forall c e, fst (m c) = inl e -> P e.

Definition is_IndexError (e : Exn) : Prop := e = IndexError.

(** The canvases a program can hold: a constructed one, after any calls. *)
Inductive reachable : Canvas -> Prop :=
| reachable_init display width_ height_ xwrap ywrap c :
    Canvas___init__ display width_ height_ xwrap ywrap = inr c ->
    reachable c
| reachable_step c o :
    reachable c -> reachable (snd (run_op o c)).

(** The canvas after storing [q] at [ij] and pushing [call]. *)
Definition drawn (c : Canvas) (ij : nat * nat) (q : Pixel) (call : SinkCall) : Canvas :=
  mkCanvas (_x_sz c) (_y_sz c) (send call (_display c)) (_scale c)
           (write ij q (_canvas c)) (_xwrap c) (_ywrap c).

Definition call_set (x y : Z) (rgb : Q * Q * Q) : SinkCall :=
  CallSet x y (fst (fst rgb)) (snd (fst rgb)) (snd rgb).

(** ** Equality up to the value of the numbers

    Two rationals computed along different paths are equal as numbers
    ([==]) without being the same fraction; colours, calls, displays and
    canvases are compared accordingly. *)

Definition colour_eq (a b : Q * Q * Q) : Prop :=
  fst (fst a) == fst (fst b) /\ snd (fst a) == snd (fst b) /\ snd a == snd b.

Definition call_eq (k k' : SinkCall) : Prop :=
  match k, k' with
  | CallClear, CallClear => True
  | CallShow, CallShow => True
  | CallSet x y r g b, CallSet x' y' r' g' b' =>
      x = x' /\ y = y' /\ colour_eq (r, g, b) (r', g', b')
  | _, _ => False
  end.

Definition display_eq (d d' : Display) : Prop :=
  class_ d = class_ d' /\ _orientation d = _orientation d' /\
  _width d = _width d' /\ _height d = _height d' /\
  Forall2 call_eq (calls d) (calls d').

Definition canvas_eq (c c' : Canvas) : Prop :=
  _x_sz c = _x_sz c' /\ _y_sz c = _y_sz c' /\ _scale c == _scale c' /\
  _xwrap c = _xwrap c' /\ _ywrap c = _ywrap c' /\
  display_eq (_display c) (_display c') /\
  Forall2 (Forall2 pixel_eq) (_canvas c) (_canvas c').

(** ** Geometry *)

(** The overlap, on one axis, of the span [[l, r]] with the cell [p], as
    the loop body computes it: [cell_area] is the product of two. *)
Definition overlap (l r : Q) (p : Z) : Q :=
  Qabs (Py.min r (inject_Z (p + 1)) - Py.max l (inject_Z (p + 0))).

(** The length of the part of the span [[lo, hi]] inside the cell [p],
    that is inside [[p, p + 1]]; and the area of the part of the region
    [[dxl, dxr] x [dyt, dyb]] inside the unit square of the cell
    [(px, py)]. *)
Definition intersection_length (lo hi : Q) (p : Z) : Q :=
  Py.max 0 (Py.min hi (inject_Z p + 1) - Py.max lo (inject_Z p)).

Definition intersection_area (dxl dxr dyt dyb : Q) (px py : Z) : Q :=
  intersection_length dxl dxr px * intersection_length dyt dyb py.

(** ** Configuration *)

Definition valid_orientations : list Z := [0; 90; 180; 270]%Z.

(** The width and height a [Canvas] is constructed with. *)
Definition given (arg : option Z) (default : Z) : Z :=
  match arg with None => default | Some v => v end.

(** What the specification says of an orientation setter, on the display
    [d] and the value [o]. *)
Definition claimed_set_orientation (d : Display) (o : Z) : Prop :=
  (~ In o valid_orientations ->
   (exists e, fst (set_orientation d o) = inl e) /\
   orientation (snd (set_orientation d o)) = orientation d) /\
  (In o valid_orientations ->
   fst (set_orientation d o) = inr tt /\
   orientation (snd (set_orientation d o)) = o).

(** What the specification says of constructing a Null Sink. *)
Definition claimed_NullDisplay___init__ (width height : Z) : Prop :=
  (width <= 0 \/ height <= 0)%Z ->
  exists e, NullDisplay___init__ width height = inl e.

(** ** Objects the statements are exercised on *)

Definition null_4x4 : Display := Display___init__ NullDisplay 4 4.

Definition sdl_800x600 : Display := Display___init__ Inheriting 800 600.

(** [Canvas(NullDisplay(4, 4), xwrap=..., ywrap=...)]. *)
Definition canvas_4x4 (xwrap ywrap : bool) : Canvas :=
  Eval vm_compute in
    match Canvas___init__ null_4x4 None None xwrap ywrap with
    | inr c => c
    | inl _ => mkCanvas 0 0 null_4x4 0 [] xwrap ywrap
    end.

Definition some_draws : list Op :=
  [OpSet (3 # 2) (3 # 2) 0 1 0 1; OpSet 1 1 1 0 0 1; OpClear;
   OpSet (1 # 4) (1 # 4) 2 (1 # 2) (-1) (1 # 2); OpSet (-3 # 2) 0 1 1 1 3].

Definition painted_4x4 : Canvas := run_ops some_draws (canvas_4x4 true false).

(** An image of the given size. *)
Definition image_of (iw ih : Z) : Image :=
  mkImage (iw, ih) (fun xy => (255, (fst xy * 40) mod 256, (snd xy * 40) mod 256)%Z).

(** * More of the code, and the predicates of its properties *)

(** ** The remaining Canvas methods *)

(** [Display.quit] (lines 111-116), as the canvas's display runs it:
    [clear()] then [show()]. *)
Definition Display_quit : M unit := display_clear ;;; display_show.

(** [Canvas.quit] (lines 540-544): [self._display.quit()]. *)
Definition Canvas_quit : M unit := Display_quit.

(** Every method of [Canvas] that acts on the object. *)
Inductive Method : Type :=
| MClear
| MSet (x y r g b s : Q)
| MSetImage (image : Image)
| MShow
| MQuit.

Definition run_method (m : Method) : M unit :=
  match m with
  | MClear => Canvas_clear
  | MSet x y r g b s => Canvas_set x y r g b s
  | MSetImage image => Canvas_set_image image
  | MShow => Canvas_show
  | MQuit => Canvas_quit
  end.

Definition run_methods (ms : list Method) (c : Canvas) : Canvas :=
  fold_left (fun c m => snd (run_method m c)) ms c.

(** ** Predicates of the further properties *)

(** [c'] has the configuration of [c]: the logical size, the scale, the
    wrap flags, the display's class, orientation and shape, and the shape
    of the buffer; and the display of [c'] has received the calls of the
    display of [c], then possibly more. *)
Definition same_config (c c' : Canvas) : Prop :=
  _x_sz c' = _x_sz c /\ _y_sz c' = _y_sz c /\ _scale c' = _scale c /\
  _xwrap c' = _xwrap c /\ _ywrap c' = _ywrap c /\
  class_ (_display c') = class_ (_display c) /\
  _orientation (_display c') = _orientation (_display c) /\
  get_shape (_display c') = get_shape (_display c) /\
  List.map (@length Pixel) (_canvas c') = List.map (@length Pixel) (_canvas c) /\
  exists new, calls (_display c') = calls (_display c) ++ new.

(** The coverage of every entry of [canvas'] is at least that of the
    entry of [canvas] at the same place. *)
Definition coverage_le (canvas canvas' : list (list Pixel)) : Prop :=
  Forall2 (Forall2 (fun p q => pf p <= pf q)) canvas canvas'.

(** A display after a sequence of [set_orientation] calls, each caught if
    it raises. *)
Definition set_orientations (os : list Z) (d : Display) : Display :=
  fold_left (fun d o => snd (set_orientation d o)) os d.


(** [m], run on a canvas meeting [I], returns and leaves a canvas meeting
    [I]. *)
Definition returns (I : Canvas -> Prop) (m : M unit) : Prop :=
  forall c, I c -> fst (m c) = inr tt /\ I (snd (m c)).

(** A canvas that clips on both axes, its buffer in the shape [W x H] of
    its display. *)
Definition clipping (W H : Z) (c : Canvas) : Prop :=
  shape_inv c /\ width (_display c) = W /\ height (_display c) = H /\
  _xwrap c = false /\ _ywrap c = false.

(** The entry [set_image] stores, through the direct branch of [set], for
    an image pixel [rgb]. *)
Definition image_entry (rgb : Z * Z * Z) : Pixel :=
  mkPixel (clamp01 (inject_Z (fst (fst rgb)) / 255))
          (clamp01 (inject_Z (snd (fst rgb)) / 255))
          (clamp01 (inject_Z (snd rgb) / 255)) 1.

(** A canvas over a [W x H] display, of scale [scale], whose entries at
    the cells in [S] hold the pixels of [image] at the same coordinates. *)
Definition copying (image : Image) (W H : Z) (scale : Q) (S : Z -> Z -> Prop)
    (c : Canvas) : Prop :=
  shape_inv c /\ width (_display c) = W /\ height (_display c) = H /\
  _scale c = scale /\
  forall x y, (0 <= x < W)%Z -> (0 <= y < H)%Z -> S x y ->
    pixel_at c x y = Some (image_entry (getpixel image (x, y))).

(** ** The displays: [Display._orient] and the PIL-backed [_PIL]

    [pils.py] keeps the picture in a PIL image; the image is embedded by
    its [size] and its [getpixel], as for [set_image]. *)

(** What the display code raises beyond the exceptions of the canvas:
    the [ValueError] of [_orient], the [AttributeError] of reading
    [self._image] on an object that has none, and the [ValueError] of
    [Image.new] on a negative size. *)
Inductive DisplayExn : Type :=
| OrientValueError_BadOrientation (orientation : Z)
| AttributeError__image
| ImageValueError_NegativeSize.

(** [Display._orient] (lines 119-138 of [__init__.py]).  [image_size] is
    the size of [self._image], [None] on an object with no such attribute
    ([MAX7219], [RGBLEDMatrix] and [SDL] set none). *)
Definition Display__orient (orientation : Z) (image_size : option (Z * Z))
    (x y : Z) : DisplayExn + Z * Z :=
  if (orientation =? 0)%Z then inr (x, y)
  else if (orientation =? 90)%Z then inr (y, x)
  else if (orientation =? 180)%Z then
    match image_size with
    | Some (w, h) => inr (w - x, h - y)%Z
    | None => inl AttributeError__image
    end
  else if (orientation =? 270)%Z then
    match image_size with
    | Some (w, h) => inr (w - y, h - x)%Z
    | None => inl AttributeError__image
    end
  else inl (OrientValueError_BadOrientation orientation).

(** A [_PIL] object: the [_orientation] of the base class and [_image]. *)
Record PIL : Type := mkPIL {
  PIL_orientation : Z;
  _image : Image
}.

(** [Image.putpixel(xy, value)]. *)
Definition putpixel (image : Image) (xy : Z * Z) (value : Z * Z * Z) : Image :=
  mkImage (size image)
          (fun p => if (fst p =? fst xy)%Z && (snd p =? snd xy)%Z then value
                    else getpixel image p).

(** [_PIL.__init__] (lines 15-31 of [pils.py]): a black image. *)
Definition PIL___init__ (width height : Z) : DisplayExn + PIL :=
  if (width <? 0)%Z || (height <? 0)%Z then inl ImageValueError_NegativeSize
  else inr (mkPIL 0 (mkImage (width, height) (fun _ => (0, 0, 0)%Z))).

(** [_PIL.get_shape] (lines 34-35). *)
Definition PIL_get_shape (d : PIL) : Z * Z := size (_image d).

(** [Display.set_orientation] (lines 99-108 of [__init__.py]), which
    [_PIL] inherits, on a [_PIL] object. *)
Definition PIL_set_orientation (d : PIL) (o : Z) : (Exn + unit) * PIL :=
  if bad_orientation o then (inl (ValueError_BadOrientation o), d)
  else (inr tt, mkPIL o (_image d)).

Definition PIL_set_orientations (os : list Z) (d : PIL) : PIL :=
  fold_left (fun d o => snd (PIL_set_orientation d o)) os d.

(** [int(255 * min(max(r, 0.0), 1.0))] (lines 54-56 of [pils.py]; the same
    in [pimoroni.py], [rgbledmatrix.py] and [sdl.py]). *)
Definition channel_byte (r : Q) : Z := Py.int (255 * Py.min (Py.max r 0) 1).

(** [_PIL.set] (lines 41-58 of [pils.py]), [_PIL.clear] (lines 38-39). *)
Definition PIL_set (d : PIL) (x y : Z) (r g b : Q) : (DisplayExn + unit) * PIL :=
  match Display__orient (PIL_orientation d) (Some (size (_image d))) x y with
  | inl e => (inl e, d)
  | inr (dx, dy) =>
      if ((0 <=? dx)%Z && (dx <? fst (size (_image d)))%Z)
         && ((0 <=? dy)%Z && (dy <? snd (size (_image d)))%Z)
      then (inr tt,
            mkPIL (PIL_orientation d)
                  (putpixel (_image d) (dx, dy)
                            (channel_byte r, channel_byte g, channel_byte b)))
      else (inr tt, d)
  end.

Definition PIL_clear (d : PIL) : PIL :=
  mkPIL (PIL_orientation d) (mkImage (size (_image d)) (fun _ => (0, 0, 0)%Z)).

(** A 6 x 4 [_PIL] display, as constructed and turned by 180 degrees. *)
Definition pil_6x4 : PIL := mkPIL 0 (mkImage (6, 4)%Z (fun _ => (0, 0, 0)%Z)).

(** ** The factors of a draw *)

(** The sum of a list of rationals. *)
Definition Qsum (l : list Q) : Q := fold_right Qplus 0 l.

(** The factors [set] computes, in its last branch, for the cells its two
    loops visit, for a square of side [scale] around [(dx, dy)]: one list
    per [px], in the order of the loops. *)
Definition visited_factors (dx dy scale : Q) : list (list Q) :=
  let '(l_off, r_off) := offsets scale in
  let dxl := dx - l_off in
  let dxr := dx + r_off in
  let dyt := dy - l_off in
  let dyb := dy + r_off in
  List.map (fun px =>
    List.map (fun py => cell_area dxl dxr dyt dyb px py)
             (Py.range (Py.int dyt) (Py.int dyb + 1)))
    (Py.range (Py.int dxl) (Py.int dxr + 1)).

(** ** Predicates of the draws on a [NullDisplay] canvas of scale 1

    The statements on the outcome of one draw are made where the
    embedding and the source run the same computation: over a
    [NullDisplay], whose [set] is [pass] and so returns as [display_set]
    does, and at scale 1 with integer coordinates below [2 ^ 52], where
    every product, sum and comparison of [Canvas.set] is exact in
    [float64]. *)

(** From [c] to [c'], the entry [canvas[col][row]] has been given the
    colour [(dr, dg, db)] with coverage 1, no other entry of the grid has
    changed, and the display has received one more call, its [set] at
    [(call_x, row)] with that colour. *)
Definition pixel_overwritten (c c' : Canvas) (col row : Z) (dr dg db : Q)
    (call_x : Z) : Prop :=
  (exists q, pixel_at c' col row = Some q /\ pixel_eq q (mkPixel dr dg db 1)) /\
  (forall x y,
     (0 <= x < width (_display c))%Z -> (0 <= y < height (_display c))%Z ->
     (x, y) <> (col, row) -> pixel_at c' x y = pixel_at c x y) /\
  Forall2 call_eq (calls (_display c'))
          (calls (_display c) ++ [CallSet call_x row dr dg db]).

(** The bands of every pixel of [image] are bytes, as in a PIL image of
    mode RGB. *)
Definition rgb_bytes (image : Image) : Prop :=
  forall xy,
    (0 <= fst (fst (getpixel image xy)) <= 255)%Z /\
    (0 <= snd (fst (getpixel image xy)) <= 255)%Z /\
    (0 <= snd (getpixel image xy) <= 255)%Z.

(** ** Colour channels that are not numbers

    A [float] argument is a number, an infinity or NaN.  [_PIL.set] turns
    each channel into a byte with [int(255 * min(max(r, 0.0), 1.0))]
    (lines 54-56 of [pils.py]): [max(r, 0.0)] keeps a NaN, since
    [0.0 > nan] is false, and so does [min(nan, 1.0)]; [int] then raises
    ValueError.  The infinities are clamped to 1.0 and to 0.0. *)
Inductive Channel : Type :=
| Num (q : Q)
| PosInf
| NegInf
| NaN.

(** What [_PIL.set] raises: what [_orient] raises, and the [ValueError] of
    [int] on a NaN. *)
Inductive PILExn : Type :=
| OrientExn (e : DisplayExn)
| IntValueError_NaN.

Definition channel_byte_of (r : Channel) : option Z :=
  match r with
  | Num q => Some (channel_byte q)
  | PosInf => Some 255%Z
  | NegInf => Some 0%Z
  | NaN => None
  end.

(** [_PIL.set] (lines 41-58 of [pils.py]) on any [float] channels: the
    three bytes are computed, inside the bounds check, before [putpixel]
    is called. *)
Definition PIL_set_float (d : PIL) (x y : Z) (r g b : Channel)
  : (PILExn + unit) * PIL :=
  match Display__orient (PIL_orientation d) (Some (size (_image d))) x y with
  | inl e => (inl (OrientExn e), d)
  | inr (dx, dy) =>
      if ((0 <=? dx)%Z && (dx <? fst (size (_image d)))%Z)
         && ((0 <=? dy)%Z && (dy <? snd (size (_image d)))%Z)
      then
        match channel_byte_of r, channel_byte_of g, channel_byte_of b with
        | Some r8, Some g8, Some b8 =>
            (inr tt, mkPIL (PIL_orientation d)
                           (putpixel (_image d) (dx, dy) (r8, g8, b8)))
        | _, _, _ => (inl IntValueError_NaN, d)
        end
      else (inr tt, d)
  end.

(** Whether the position [_orient] gives for [(x, y)] is on the image. *)
Definition on_image (d : PIL) (x y : Z) : bool :=
  match Display__orient (PIL_orientation d) (Some (size (_image d))) x y with
  | inl _ => false
  | inr (dx, dy) =>
      ((0 <=? dx)%Z && (dx <? fst (size (_image d)))%Z)
      && ((0 <=? dy)%Z && (dy <? snd (size (_image d)))%Z)
  end.

(** * Properties *)

(** ** Tests on rationals *)

Lemma Qltb_lt (a b : Q) : Py.Qltb a b = true <-> a < b.
Proof.
  unfold Py.Qltb. rewrite negb_true_iff.
  split; intros H.
  - apply Qnot_le_lt. intros Hle. apply Qle_bool_iff in Hle. congruence.
  - destruct (Qle_bool b a) eqn:E; [|reflexivity].
    apply Qle_bool_iff in E. lra.
Qed.

Lemma Qltb_ge (a b : Q) : Py.Qltb a b = false <-> b <= a.
Proof.
  unfold Py.Qltb. rewrite negb_false_iff. apply Qle_bool_iff.
Qed.

Lemma Qle_bool_false (a b : Q) : Qle_bool a b = false <-> b < a.
Proof.
  rewrite <- Qltb_lt. unfold Py.Qltb. now rewrite negb_true_iff.
Qed.

Lemma Qeq_bool_false (a b : Q) : Qeq_bool a b = false <-> ~ a == b.
Proof.
  split.
  - intros H Heq. apply Qeq_bool_iff in Heq. congruence.
  - intros H. destruct (Qeq_bool a b) eqn:E; [|reflexivity].
    apply Qeq_bool_iff in E. contradiction.
Qed.

(** Case analysis on a test, leaving its meaning in the context. *)
Ltac case_test :=
  match goal with
  | |- context [Py.Qltb ?a ?b] =>
      let E := fresh "E" in
      destruct (Py.Qltb a b) eqn:E;
      [apply Qltb_lt in E | apply Qltb_ge in E]
  | |- context [Qle_bool ?a ?b] =>
      let E := fresh "E" in
      destruct (Qle_bool a b) eqn:E;
      [apply Qle_bool_iff in E | apply Qle_bool_false in E]
  | |- context [Qeq_bool ?a ?b] =>
      let E := fresh "E" in
      destruct (Qeq_bool a b) eqn:E;
      [apply Qeq_bool_iff in E | apply Qeq_bool_false in E]
  end.

Lemma min_spec (a b : Q) :
  (b < a /\ Py.min a b = b) \/ (a <= b /\ Py.min a b = a).
Proof. unfold Py.min. case_test; auto. Qed.

Lemma max_spec (a b : Q) :
  (a < b /\ Py.max a b = b) \/ (b <= a /\ Py.max a b = a).
Proof. unfold Py.max. case_test; auto. Qed.

Lemma cap1_spec (v : Q) : (v < 1 /\ cap1 v = v) \/ (1 <= v /\ cap1 v = 1).
Proof. unfold cap1. case_test; auto. Qed.

Lemma clamp01_range (r : Q) : 0 <= clamp01 r <= 1.
Proof.
  unfold clamp01.
  destruct (Qle_bool 0 r) eqn:E0; destruct (Qle_bool r 1) eqn:E1; cbn [andb];
    try (apply Qle_bool_iff in E0); try (apply Qle_bool_iff in E1);
    try (split; assumption);
    destruct (min_spec (Py.max 0 r) 1) as [[? Hn]|[? Hn]]; rewrite Hn;
    destruct (max_spec 0 r) as [[? Hm]|[? Hm]]; rewrite ?Hm in *; lra.
Qed.

Lemma Qdiv_nonneg (a b : Q) : 0 <= a -> 0 < b -> 0 <= a / b.
Proof.
  intros Ha Hb. apply Qle_shift_div_l; [assumption | lra].
Qed.

Lemma Qmul_le_self (f d : Q) : 0 <= f -> d <= 1 -> f * d <= f.
Proof. intros. nra. Qed.

(** ** The invariant of a buffer entry *)

Lemma zero_pixel_inv : pixel_inv zero_pixel.
Proof. unfold pixel_inv, zero_pixel; cbn. lra. Qed.

(** One channel through the additive branch, and through the saturating
    branch, of the rule. *)
Lemma additive_channel (f d c cov : Q) :
  0 <= f -> 0 <= d <= 1 -> 0 <= c <= cov ->
  0 <= cap1 (c + f * d) <= cap1 (f + cov).
Proof.
  intros Hf Hd Hc.
  assert (0 <= f * d) by (apply Qmult_le_0_compat; lra).
  assert (f * d <= f) by (apply Qmul_le_self; lra).
  destruct (cap1_spec (c + f * d)) as [[? ->]|[? ->]];
    destruct (cap1_spec (f + cov)) as [[? ->]|[? ->]]; lra.
Qed.

Lemma saturating_channel (f d c cov : Q) :
  0 <= f <= 1 -> 0 <= d -> 0 <= c -> 0 < cov ->
  0 <= cap1 (Py.min ((1 - f) / cov * c + f * d) 1) <= cap1 1.
Proof.
  intros Hf Hd Hc Hcov.
  assert (0 <= (1 - f) / cov) by (apply Qdiv_nonneg; lra).
  assert (0 <= (1 - f) / cov * c) by (apply Qmult_le_0_compat; lra).
  assert (0 <= f * d) by (apply Qmult_le_0_compat; lra).
  set (v := (1 - f) / cov * c + f * d) in *.
  assert (0 <= v) by (unfold v; lra).
  destruct (min_spec v 1) as [[? ->]|[? ->]];
    destruct (cap1_spec 1) as [[? ->]|[? ->]];
    try destruct (cap1_spec v) as [[? ->]|[? ->]]; lra.
Qed.

Lemma additive_channel_le1 (f d c cov : Q) :
  0 <= f <= 1 -> 0 <= d <= 1 -> 0 <= c <= cov ->
  cov == 0 \/ cov <= 1 - f ->
  c + f * d <= 1.
Proof.
  intros Hf Hd Hc Hcov.
  assert (f * d <= f) by (apply Qmul_le_self; lra).
  destruct Hcov; lra.
Qed.

(** The two branches of [composite], with the tests decided. *)
Lemma composite_additive (f dr dg db : Q) (p : Pixel) :
  pf p == 0 \/ pf p <= 1 - f ->
  composite f dr dg db p =
    (mkPixel (cap1 (pr p + f * dr)) (cap1 (pg p + f * dg))
             (cap1 (pb p + f * db)) (cap1 (f + pf p)),
     (pr p + f * dr, pg p + f * dg, pb p + f * db)).
Proof.
  intros H. unfold composite.
  assert (Qeq_bool (pf p) 0 || Qle_bool (pf p) (1 - f) = true) as ->.
  { apply orb_true_iff. destruct H as [H|H].
    - left. now apply Qeq_bool_iff.
    - right. now apply Qle_bool_iff. }
  reflexivity.
Qed.

Lemma composite_saturating (f dr dg db : Q) (p : Pixel) :
  ~ pf p == 0 -> 1 - f < pf p ->
  composite f dr dg db p =
    (mkPixel (cap1 (Py.min ((1 - f) / pf p * pr p + f * dr) 1))
             (cap1 (Py.min ((1 - f) / pf p * pg p + f * dg) 1))
             (cap1 (Py.min ((1 - f) / pf p * pb p + f * db) 1))
             (cap1 1),
     (Py.min ((1 - f) / pf p * pr p + f * dr) 1,
      Py.min ((1 - f) / pf p * pg p + f * dg) 1,
      Py.min ((1 - f) / pf p * pb p + f * db) 1)).
Proof.
  intros H0 H1. unfold composite.
  assert (Qeq_bool (pf p) 0 || Qle_bool (pf p) (1 - f) = false) as ->.
  { apply orb_false_iff. split.
    - now apply Qeq_bool_false.
    - now apply Qle_bool_false. }
  reflexivity.
Qed.

Lemma composite_branch (f : Q) (p : Pixel) :
  (pf p == 0 \/ pf p <= 1 - f) \/ (~ pf p == 0 /\ 1 - f < pf p).
Proof.
  destruct (Qeq_dec (pf p) 0) as [H|H]; [left; left; exact H|].
  destruct (Qlt_le_dec (1 - f) (pf p)) as [H'|H'].
  - right. split; assumption.
  - left. right. exact H'.
Qed.

(** The rule keeps the invariant of the entry, and pushes a colour with
    no channel above 1. *)
Lemma composite_inv (f dr dg db : Q) (p : Pixel) :
  0 <= f <= 1 -> 0 <= dr <= 1 -> 0 <= dg <= 1 -> 0 <= db <= 1 ->
  pixel_inv p -> pixel_inv (fst (composite f dr dg db p)).
Proof.
  intros Hf Hr Hg Hb (Ir & Ig & Ib & If).
  destruct (composite_branch f p) as [Hadd|[Hne Hlt]].
  - rewrite composite_additive by assumption. unfold pixel_inv; cbn.
    split; [apply additive_channel; tauto|].
    split; [apply additive_channel; tauto|].
    split; [apply additive_channel; tauto|].
    destruct (cap1_spec (f + pf p)) as [[? ->]|[? ->]]; lra.
  - rewrite composite_saturating by assumption. unfold pixel_inv; cbn.
    assert (0 < pf p) by lra.
    split; [apply saturating_channel; tauto|].
    split; [apply saturating_channel; tauto|].
    split; [apply saturating_channel; tauto|].
    destruct (cap1_spec 1) as [[? ->]|[? ->]]; lra.
Qed.

Lemma composite_pushed_le1 (f dr dg db : Q) (p : Pixel) :
  0 <= f <= 1 -> 0 <= dr <= 1 -> 0 <= dg <= 1 -> 0 <= db <= 1 ->
  pixel_inv p -> colour_le1 (snd (composite f dr dg db p)).
Proof.
  intros Hf Hr Hg Hb (Ir & Ig & Ib & If).
  destruct (composite_branch f p) as [Hadd|[Hne Hlt]].
  - rewrite composite_additive by assumption. unfold colour_le1; cbn.
    repeat split; eapply additive_channel_le1; eauto.
  - rewrite composite_saturating by assumption. unfold colour_le1; cbn.
    repeat split;
      match goal with |- Py.min ?v 1 <= 1 =>
        destruct (min_spec v 1) as [[? ->]|[? ->]]; lra end.
Qed.

(** ** Invariants of the canvas object *)

Section Preserves.
Context (I : Canvas -> Prop).

Lemma preserves_ret {A} (a : A) : preserves I (ret a).
Proof. intros c Hc. exact Hc. Qed.

Lemma preserves_raise {A} (e : Exn) : preserves I (@raise A e).
Proof. intros c Hc. exact Hc. Qed.

Lemma preserves_gets {A} (f : Canvas -> A) : preserves I (gets f).
Proof. intros c Hc. exact Hc. Qed.

Lemma preserves_bind {A B} (m : M A) (k : A -> M B) :
  preserves I m -> (forall a, preserves I (k a)) -> preserves I (bind m k).
Proof.
  intros Hm Hk c Hc. unfold bind.
  specialize (Hm c Hc).
  destruct (m c) as [[e|a] c']; cbn in *; [exact Hm|].
  apply Hk, Hm.
Qed.

Lemma preserves_for (l : list Z) (body : Z -> M unit) :
  (forall i, preserves I (body i)) -> preserves I (for_ l body).
Proof.
  intros Hbody. induction l as [|i l IH]; cbn [for_].
  - apply preserves_ret.
  - apply preserves_bind; [apply Hbody | intros _; exact IH].
Qed.
End Preserves.

Lemma read_inv (canvas : list (list Pixel)) (ij : nat * nat) :
  buffer_inv canvas -> pixel_inv (read canvas ij).
Proof.
  intros H. unfold read.
  destruct (canvas !! ij.1) as [col|] eqn:Ecol; [|apply zero_pixel_inv].
  destruct (col !! ij.2) as [p|] eqn:Ep; cbn; [|apply zero_pixel_inv].
  eapply Forall_lookup_1 in Ecol; [|exact H].
  eapply Forall_lookup_1 in Ep; [|exact Ecol]. exact Ep.
Qed.

Lemma write_inv (canvas : list (list Pixel)) (ij : nat * nat) (p : Pixel) :
  pixel_inv p -> buffer_inv canvas -> buffer_inv (write ij p canvas).
Proof.
  intros Hp H. unfold write, buffer_inv.
  apply Forall_alter; [exact H|].
  intros col _ Hcol. apply Forall_insert; assumption.
Qed.

Lemma write_length (canvas : list (list Pixel)) (ij : nat * nat) (p : Pixel) :
  length (write ij p canvas) = length canvas.
Proof. unfold write. apply length_alter. Qed.

Lemma write_columns (canvas : list (list Pixel)) (ij : nat * nat) (p : Pixel) (n : nat) :
  Forall (fun col => length col = n) canvas ->
  Forall (fun col => length col = n) (write ij p canvas).
Proof.
  intros H. unfold write. apply Forall_alter; [exact H|].
  intros col _ Hcol. rewrite length_insert. exact Hcol.
Qed.

(** Storing an entry and pushing a colour, the two effects of a draw on
    one pixel. *)
Lemma store_push_inv (old : list SinkCall) (ij : nat * nat) (p : Pixel)
    (x y : Z) (r g b : Q) :
  pixel_inv p -> colour_le1 (r, g, b) ->
  preserves (Inv old) (with_canvas (write ij p) ;;; display_set x y r g b).
Proof.
  intros Hp Hrgb c (Hbuf & [Hlen Hcols] & new & Hcalls & Hnew).
  cbn. split; [|split].
  - apply write_inv; assumption.
  - split; cbn.
    + rewrite write_length. exact Hlen.
    + apply write_columns. exact Hcols.
  - exists (new ++ [CallSet x y r g b]). split.
    + cbn. rewrite Hcalls. now rewrite app_assoc.
    + apply Forall_app. split; [exact Hnew|].
      constructor; [exact Hrgb | constructor].
Qed.

Lemma blend_inv (old : list SinkCall) (px py : Z) (f dr dg db : Q) :
  0 <= f <= 1 -> 0 <= dr <= 1 -> 0 <= dg <= 1 -> 0 <= db <= 1 ->
  preserves (Inv old) (blend px py f dr dg db).
Proof.
  intros Hf Hr Hg Hb c Hc. unfold blend, bind, gets.
  destruct (locate (_canvas c) px py) as [ij|]; [|exact Hc].
  pose proof (read_inv (_canvas c) ij (proj1 Hc)) as Hp.
  pose proof (composite_inv f dr dg db _ Hf Hr Hg Hb Hp) as Hq.
  pose proof (composite_pushed_le1 f dr dg db _ Hf Hr Hg Hb Hp) as Hpush.
  destruct (composite f dr dg db (read (_canvas c) ij)) as [q [[r g] b]].
  apply (store_push_inv old ij q px py r g b Hq Hpush c Hc).
Qed.

Lemma set_direct_inv (old : list SinkCall) (dx dy : Z) (dr dg db : Q) :
  0 <= dr <= 1 -> 0 <= dg <= 1 -> 0 <= db <= 1 ->
  preserves (Inv old) (set_direct dx dy dr dg db).
Proof.
  intros Hr Hg Hb c Hc. unfold set_direct, bind, gets.
  destruct (locate (_canvas c) dx dy) as [ij|]; [|exact Hc].
  apply (store_push_inv old ij (mkPixel dr dg db 1) dx dy dr dg db); try assumption.
  - unfold pixel_inv; cbn. lra.
  - unfold colour_le1; cbn. lra.
Qed.

Lemma paint_cell_inv (old : list SinkCall) (width height : Z) (xwrap ywrap : bool)
    (dxl dxr dyt dyb dr dg db : Q) (px py : Z) :
  0 <= dr <= 1 -> 0 <= dg <= 1 -> 0 <= db <= 1 ->
  preserves (Inv old)
    (paint_cell width height xwrap ywrap dxl dxr dyt dyb dr dg db px py).
Proof.
  intros Hr Hg Hb. unfold paint_cell.
  set (area := cell_area dxl dxr dyt dyb px py).
  destruct (Qle_bool area 0) eqn:Ea; [apply preserves_ret|].
  apply Qle_bool_false in Ea.
  destruct (wrap_or_skip px width xwrap); [|apply preserves_ret].
  destruct (wrap_or_skip py height ywrap); [|apply preserves_ret].
  apply blend_inv; try assumption.
  case_test; lra.
Qed.

Lemma paint_square_inv (old : list SinkCall) (width height : Z) (xwrap ywrap : bool)
    (dx dy dr dg db scale : Q) :
  0 <= dr <= 1 -> 0 <= dg <= 1 -> 0 <= db <= 1 ->
  preserves (Inv old) (paint_square width height xwrap ywrap dx dy dr dg db scale).
Proof.
  intros Hr Hg Hb. unfold paint_square.
  destruct (offsets scale) as [l_off r_off].
  apply preserves_for. intros px. apply preserves_for. intros py.
  apply paint_cell_inv; assumption.
Qed.

Lemma square_below_1 (s : Q) : 0 < s -> s < 1 -> 0 <= s ^ 2 <= 1.
Proof. intros H0 H1. change (s ^ 2) with (s * s). nra. Qed.

Lemma Canvas_set_inv (old : list SinkCall) (x y r g b s : Q) :
  preserves (Inv old) (Canvas_set x y r g b s).
Proof.
  intros c Hc. unfold Canvas_set, bind, gets, id.
  pose proof (clamp01_range r). pose proof (clamp01_range g).
  pose proof (clamp01_range b).
  destruct (Qle_bool (s * _scale c) 0) eqn:Es; [exact Hc|].
  apply Qle_bool_false in Es.
  match goal with |- context [if ?t then set_direct _ _ _ _ _ else _] =>
    destruct t end.
  { apply set_direct_inv; assumption. }
  destruct (Py.Qltb (s * _scale c) 1) eqn:E1; cbn [andb].
  - apply Qltb_lt in E1.
    match goal with |- context [if ?t then blend _ _ _ _ _ _ else _] =>
      destruct t end.
    + apply blend_inv; try assumption. apply square_below_1; assumption.
    + apply paint_square_inv; assumption.
  - apply paint_square_inv; assumption.
Qed.

Lemma Canvas_set_image_inv (old : list SinkCall) (image : Image) :
  preserves (Inv old) (Canvas_set_image image).
Proof.
  intros c Hc. unfold Canvas_set_image, bind, gets, id.
  destruct (get_shape (_display c)) as [dw dh].
  destruct (size image) as [iw ih].
  destruct ((iw <=? 0)%Z || (ih <=? 0)%Z); [exact Hc|].
  revert c Hc. apply preserves_for. intros ix.
  apply preserves_for. intros iy.
  destruct (getpixel image (ix, iy)) as [[rgb0 rgb1] rgb2].
  apply Canvas_set_inv.
Qed.

Lemma Canvas_clear_inv (old : list SinkCall) :
  preserves (Inv old) Canvas_clear.
Proof.
  intros c (Hbuf & [Hlen Hcols] & new & Hcalls & Hnew).
  cbn. split; [|split].
  - unfold buffer_inv. apply Forall_forall. intros col Hcol.
    apply list_elem_of_In, in_map_iff in Hcol as (col0 & <- & _).
    apply Forall_forall. intros p Hp.
    apply list_elem_of_In, in_map_iff in Hp as (p0 & <- & _).
    apply zero_pixel_inv.
  - split; cbn.
    + rewrite List.length_map. exact Hlen.
    + apply Forall_forall. intros col Hcol.
      apply list_elem_of_In, in_map_iff in Hcol as (col0 & <- & Hin).
      rewrite List.length_map.
      rewrite Forall_forall in Hcols. apply Hcols.
      now apply list_elem_of_In.
  - exists (new ++ [CallClear]). cbn. split.
    + rewrite Hcalls. now rewrite app_assoc.
    + apply Forall_app. split; [exact Hnew|].
      constructor; [exact Logic.I | constructor].
Qed.

Lemma run_op_inv (old : list SinkCall) (o : Op) :
  preserves (Inv old) (run_op o).
Proof.
  destruct o; cbn [run_op].
  - apply Canvas_clear_inv.
  - apply Canvas_set_inv.
  - apply Canvas_set_image_inv.
Qed.

Lemma run_ops_inv (old : list SinkCall) (ops : list Op) (c : Canvas) :
  Inv old c -> Inv old (run_ops ops c).
Proof.
  revert c. induction ops as [|o ops IH]; intros c Hc; cbn.
  - exact Hc.
  - apply IH. apply run_op_inv. exact Hc.
Qed.

(** What a successful construction gives. *)
Lemma Canvas___init___inr (display : Display) (width_ height_ : option Z)
    (xwrap ywrap : bool) (c : Canvas) :
  Canvas___init__ display width_ height_ xwrap ywrap = inr c ->
  _display c = display /\ _xwrap c = xwrap /\ _ywrap c = ywrap /\
  (0 < _x_sz c)%Z /\ (0 < _y_sz c)%Z /\
  _canvas c = replicate (Z.to_nat (width display))
                        (replicate (Z.to_nat (height display)) zero_pixel).
Proof.
  unfold Canvas___init__, zeros.
  set (w := match width_ with None => width display | Some w => w end).
  set (h := match height_ with None => height display | Some h => h end).
  destruct (w <=? 0)%Z eqn:Ew; [discriminate|].
  destruct (h <=? 0)%Z eqn:Eh; [discriminate|].
  destruct ((width display <? 0)%Z || (height display <? 0)%Z); [discriminate|].
  intros [= <-]. cbn. repeat split; lia.
Qed.

Lemma Canvas___init___inv (display : Display) (width_ height_ : option Z)
    (xwrap ywrap : bool) (c : Canvas) :
  Canvas___init__ display width_ height_ xwrap ywrap = inr c ->
  Inv (calls display) c.
Proof.
  intros H. apply Canvas___init___inr in H as (Hd & _ & _ & _ & _ & Hbuf).
  split; [|split].
  - rewrite Hbuf. unfold buffer_inv.
    apply Forall_replicate, Forall_replicate, zero_pixel_inv.
  - unfold shape_inv. rewrite Hbuf, Hd. split.
    + apply length_replicate.
    + apply Forall_replicate, length_replicate.
  - exists []. rewrite Hd. split; [now rewrite app_nil_r | constructor].
Qed.

Lemma reachable_inv (c : Canvas) :
  reachable c -> exists old, Inv old c.
Proof.
  induction 1 as [display w h xw yw c Hinit | c o _ [old IH]].
  - exists (calls display). eapply Canvas___init___inv, Hinit.
  - exists old. apply run_op_inv, IH.
Qed.

Lemma reachable_run_ops (ops : list Op) (c : Canvas) :
  reachable c -> reachable (run_ops ops c).
Proof.
  revert c. induction ops as [|o ops IH]; intros c Hc; cbn.
  - exact Hc.
  - apply IH. now constructor.
Qed.

(** ** Invariants of the state buffer *)

Lemma pixel_inv_entry_ok (p : Pixel) : pixel_inv p -> entry_ok p.
Proof.
  unfold pixel_inv, entry_ok, in_unit. intros (Hr & Hg & Hb & Hf).
  repeat split; try lra; intros H0; lra.
Qed.

(** C1.  On a canvas that was constructed, after any sequence of [clear],
    [set] and [set_image] calls (raising ones included), every entry of
    the state buffer has its coverage and its three channels in [[0, 1]],
    and an entry whose coverage is 0 has all three channels 0. *)
Theorem buffer_entries_stay_valid
    (display : Display) (width_ height_ : option Z) (xwrap ywrap : bool)
    (c : Canvas) (ops : list Op) :
  Canvas___init__ display width_ height_ xwrap ywrap = inr c ->
  Forall (Forall entry_ok) (_canvas (run_ops ops c)).
Proof.
  intros Hinit.
  pose proof (run_ops_inv _ ops c (Canvas___init___inv _ _ _ _ _ _ Hinit))
    as (Hbuf & _).
  eapply Forall_impl; [exact Hbuf|].
  intros col Hcol. eapply Forall_impl; [exact Hcol|].
  exact pixel_inv_entry_ok.
Qed.

Lemma buffer_entries_stay_valid_witness :
  Canvas___init__ null_4x4 None None true false = inr (canvas_4x4 true false) /\
  Forall (Forall entry_ok) (_canvas (run_ops some_draws (canvas_4x4 true false))).
Proof.
  split; [reflexivity|].
  apply (buffer_entries_stay_valid null_4x4 None None true false).
  reflexivity.
Defined.

(** C10.  On a canvas that was constructed, after any sequence of calls,
    every entry of the buffer has each channel at most its coverage; and
    every colour the canvas has passed to the display's [set] since its
    construction has each channel at most 1, these being the values before
    the clamp applied on storing. *)
Theorem channels_bounded_by_coverage
    (display : Display) (width_ height_ : option Z) (xwrap ywrap : bool)
    (c : Canvas) (ops : list Op) :
  Canvas___init__ display width_ height_ xwrap ywrap = inr c ->
  Forall (Forall channels_below_coverage) (_canvas (run_ops ops c)) /\
  exists pushed,
    calls (_display (run_ops ops c)) = calls display ++ pushed /\
    Forall call_le1 pushed.
Proof.
  intros Hinit.
  pose proof (run_ops_inv _ ops c (Canvas___init___inv _ _ _ _ _ _ Hinit))
    as (Hbuf & _ & Hcalls).
  split; [|exact Hcalls].
  eapply Forall_impl; [exact Hbuf|].
  intros col Hcol. eapply Forall_impl; [exact Hcol|].
  unfold pixel_inv, channels_below_coverage. tauto.
Qed.

Lemma channels_bounded_by_coverage_witness :
  Canvas___init__ null_4x4 None None true false = inr (canvas_4x4 true false) /\
  Forall (Forall channels_below_coverage)
         (_canvas (run_ops some_draws (canvas_4x4 true false))) /\
  exists pushed,
    calls (_display (run_ops some_draws (canvas_4x4 true false)))
      = calls null_4x4 ++ pushed /\
    Forall call_le1 pushed.
Proof.
  split; [reflexivity|].
  apply (channels_bounded_by_coverage null_4x4 None None true false).
  reflexivity.
Defined.

(** ** No-op draws *)

(** C6.  Whatever the canvas holds, [set] with [s * scale <= 0] returns
    with the canvas object as it was: no entry of the buffer changed, no
    call made on the display. *)
Theorem set_nonpositive_scale_is_noop (c : Canvas) (x y r g b s : Q) :
  s * _scale c <= 0 ->
  Canvas_set x y r g b s c = (inr tt, c).
Proof.
  intros H. unfold Canvas_set, bind, gets, id.
  apply Qle_bool_iff in H. rewrite H. reflexivity.
Qed.

Lemma set_nonpositive_scale_is_noop_witness :
  (-2) * _scale (canvas_4x4 false false) <= 0 /\
  Canvas_set 1 1 1 1 1 (-2) (canvas_4x4 false false)
    = (inr tt, canvas_4x4 false false).
Proof.
  split; [vm_compute; discriminate|].
  apply (set_nonpositive_scale_is_noop (canvas_4x4 false false)).
  vm_compute; discriminate.
Defined.

(** ** What a method can raise *)

Section RaisesOnly.
Context (P : Exn -> Prop).

Lemma raises_only_ret {A} (a : A) : raises_only P (ret a).
Proof. intros c e H. discriminate. Qed.

Lemma raises_only_raise {A} (e : Exn) : P e -> raises_only P (@raise A e).
Proof. intros He c e' [= <-]. exact He. Qed.

Lemma raises_only_bind {A B} (m : M A) (k : A -> M B) :
  raises_only P m -> (forall a, raises_only P (k a)) ->
  raises_only P (bind m k).
Proof.
  intros Hm Hk c e. unfold bind.
  specialize (Hm c). destruct (m c) as [[e'|a] c']; cbn in *.
  - intros [= <-]. now apply Hm.
  - apply Hk.
Qed.

Lemma raises_only_for (l : list Z) (body : Z -> M unit) :
  (forall i, raises_only P (body i)) -> raises_only P (for_ l body).
Proof.
  intros Hbody. induction l as [|i l IH]; cbn [for_].
  - apply raises_only_ret.
  - apply raises_only_bind; [apply Hbody | intros _; exact IH].
Qed.
End RaisesOnly.

Lemma blend_raises (px py : Z) (f dr dg db : Q) :
  raises_only is_IndexError (blend px py f dr dg db).
Proof.
  intros c e. unfold blend, bind, gets.
  destruct (locate (_canvas c) px py) as [ij|].
  - destruct (composite f dr dg db (read (_canvas c) ij)) as [q [[r g] b]].
    discriminate.
  - intros [= <-]. reflexivity.
Qed.

Lemma set_direct_raises (dx dy : Z) (dr dg db : Q) :
  raises_only is_IndexError (set_direct dx dy dr dg db).
Proof.
  intros c e. unfold set_direct, bind, gets.
  destruct (locate (_canvas c) dx dy) as [ij|].
  - discriminate.
  - intros [= <-]. reflexivity.
Qed.

Lemma paint_square_raises (width height : Z) (xwrap ywrap : bool)
    (dx dy dr dg db scale : Q) :
  raises_only is_IndexError
    (paint_square width height xwrap ywrap dx dy dr dg db scale).
Proof.
  unfold paint_square. destruct (offsets scale) as [l_off r_off].
  apply raises_only_for. intros px. apply raises_only_for. intros py.
  unfold paint_cell.
  destruct (Qle_bool _ 0); [apply raises_only_ret|].
  destruct (wrap_or_skip px width xwrap); [|apply raises_only_ret].
  destruct (wrap_or_skip py height ywrap); [|apply raises_only_ret].
  apply blend_raises.
Qed.

Lemma Canvas_set_raises (x y r g b s : Q) :
  raises_only is_IndexError (Canvas_set x y r g b s).
Proof.
  intros c e. unfold Canvas_set, bind, gets, id.
  destruct (Qle_bool (s * _scale c) 0); [discriminate|].
  match goal with |- context [if ?t then set_direct _ _ _ _ _ else _] =>
    destruct t end.
  { apply set_direct_raises. }
  match goal with |- context [if ?t then blend _ _ _ _ _ _ else _] =>
    destruct t end.
  - apply blend_raises.
  - apply paint_square_raises.
Qed.

(** ** Images *)

(** C7.  [set_image] on an image whose width or height is not positive
    raises the bad-dimensions [ValueError] and leaves the canvas object as
    it was: no entry of the buffer changed, no call made on the display.
    On an image whose width and height are positive it does not raise that
    error. *)
Theorem set_image_rejects_bad_dimensions (image : Image) (c : Canvas) :
  ((fst (size image) <= 0 \/ snd (size image) <= 0)%Z ->
   Canvas_set_image image c
     = (inl (ValueError_BadImageDimensions (fst (size image)) (snd (size image))), c))
  /\
  ((0 < fst (size image) /\ 0 < snd (size image))%Z ->
   forall iw ih,
     fst (Canvas_set_image image c) <> inl (ValueError_BadImageDimensions iw ih)).
Proof.
  unfold Canvas_set_image, bind, gets, id.
  destruct (get_shape (_display c)) as [dw dh].
  destruct (size image) as [iw ih]; cbn [fst snd].
  split.
  - intros H.
    assert ((iw <=? 0)%Z || (ih <=? 0)%Z = true) as ->; [|reflexivity].
    apply orb_true_iff. destruct H; [left|right]; now apply Z.leb_le.
  - intros [Hw Hh] iw' ih' Hraise.
    assert ((iw <=? 0)%Z || (ih <=? 0)%Z = false) as E.
    { apply orb_false_iff. split; apply Z.leb_gt; assumption. }
    rewrite E in Hraise.
    apply (raises_only_for is_IndexError) in Hraise; [discriminate Hraise|].
    intros ix. apply raises_only_for. intros iy.
    destruct (getpixel image (ix, iy)) as [[rgb0 rgb1] rgb2].
    apply Canvas_set_raises.
Qed.

Lemma set_image_rejects_bad_dimensions_witness :
  Canvas_set_image (image_of 0 3) (canvas_4x4 false false)
    = (inl (ValueError_BadImageDimensions 0 3), canvas_4x4 false false)
  /\
  forall iw ih,
    fst (Canvas_set_image (image_of 2 3) (canvas_4x4 false false))
      <> inl (ValueError_BadImageDimensions iw ih).
Proof.
  split.
  - apply (proj1 (set_image_rejects_bad_dimensions (image_of 0 3) (canvas_4x4 false false))).
    left. cbn. lia.
  - apply (proj2 (set_image_rejects_bad_dimensions (image_of 2 3) (canvas_4x4 false false))).
    cbn. lia.
Defined.

(** ** Configuration errors *)

Lemma bad_orientation_spec (o : Z) :
  bad_orientation o = true <-> ~ In o valid_orientations.
Proof.
  unfold bad_orientation, valid_orientations. cbn [In].
  rewrite negb_true_iff, !orb_false_iff, !Z.eqb_neq. intuition lia.
Qed.

(** C8, as stated, fails on the Null Sink: its setter accepts 45, and
    nothing is raised. *)
Lemma null_display_accepts_any_orientation :
  ~ claimed_set_orientation null_4x4 45.
Proof.
  intros [Hbad _].
  destruct Hbad as [[e He] _].
  - cbn. intuition lia.
  - discriminate He.
Qed.

(** C8, amended.  For a display of any class but [NullDisplay], setting an
    orientation outside 0, 90, 180, 270 raises the bad-orientation
    [ValueError] and leaves the object as it was, and setting one of the
    four returns, stores it and changes nothing else.  On a [NullDisplay] the setter returns for
    every value and leaves the object, its orientation included, as it
    was. *)
Theorem set_orientation_by_class (d : Display) (o : Z) :
  (class_ d <> NullDisplay ->
   (~ In o valid_orientations ->
    set_orientation d o = (inl (ValueError_BadOrientation o), d)) /\
   (In o valid_orientations ->
    set_orientation d o
      = (inr tt, mkDisplay (class_ d) o (_width d) (_height d) (calls d)))) /\
  (class_ d = NullDisplay -> set_orientation d o = (inr tt, d)).
Proof.
  split.
  - intros Hclass.
    assert (set_orientation d o = Display_set_orientation d o) as ->.
    { unfold set_orientation. destruct (class_ d); [contradiction|reflexivity..]. }
    unfold Display_set_orientation. split; intros Ho.
    + apply bad_orientation_spec in Ho. now rewrite Ho.
    + destruct (bad_orientation o) eqn:E; [|reflexivity].
      apply bad_orientation_spec in E. contradiction.
  - intros Hclass. unfold set_orientation. now rewrite Hclass.
Qed.

Lemma set_orientation_by_class_witness :
  set_orientation sdl_800x600 45
    = (inl (ValueError_BadOrientation 45), sdl_800x600) /\
  set_orientation sdl_800x600 270
    = (inr tt, mkDisplay Inheriting 270 800 600 []) /\
  set_orientation null_4x4 270 = (inr tt, null_4x4).
Proof.
  split; [|split].
  - apply (proj1 (set_orientation_by_class sdl_800x600 45)).
    + discriminate.
    + cbn. intuition lia.
  - apply (proj1 (set_orientation_by_class sdl_800x600 270)).
    + discriminate.
    + cbn. tauto.
  - apply (proj2 (set_orientation_by_class null_4x4 270)). reflexivity.
Defined.

(** C9, as stated, fails: a Null Sink of width 0 is constructed, with
    width 1, and nothing is raised. *)
Lemma null_display_clamps_width :
  ~ claimed_NullDisplay___init__ 0 5.
Proof.
  intros H. destruct H as [e He]; [left; lia|]. discriminate He.
Qed.

(** C9, amended.  Constructing a [NullDisplay] never raises: a width or a
    height below 1 is replaced by 1, so the shape it reports is positive.
    Constructing a [Canvas] whose logical width or height is not positive
    raises the bad-width or bad-height [ValueError], and no canvas
    results. *)
Theorem construction_checks
    (w h : Z) (display : Display) (width_ height_ : option Z) (xwrap ywrap : bool) :
  (exists d, NullDisplay___init__ w h = inr d /\
             get_shape d = (Z.max 1 w, Z.max 1 h) /\
             (0 < width d)%Z /\ (0 < height d)%Z) /\
  ((given width_ (width display) <= 0 \/ given height_ (height display) <= 0)%Z ->
   exists e, Canvas___init__ display width_ height_ xwrap ywrap = inl e /\
             (e = ValueError_BadWidth (given width_ (width display)) \/
              e = ValueError_BadHeight (given height_ (height display)))).
Proof.
  split.
  - eexists. split; [reflexivity|]. cbn. repeat split; lia.
  - intros H. unfold Canvas___init__, given in *.
    destruct (_ <=? 0)%Z eqn:Ew.
    + eexists. split; [reflexivity|]. now left.
    + destruct (match height_ with Some _ => _ | None => _ end <=? 0)%Z eqn:Eh.
      * eexists. split; [reflexivity|]. now right.
      * apply Z.leb_gt in Ew, Eh. lia.
Qed.

Lemma construction_checks_witness :
  (exists d, NullDisplay___init__ (-3) 0 = inr d /\
             get_shape d = (1, 1)%Z /\ (0 < width d)%Z /\ (0 < height d)%Z) /\
  exists e, Canvas___init__ null_4x4 (Some 8%Z) (Some 0%Z) false false = inl e /\
            (e = ValueError_BadWidth 8 \/ e = ValueError_BadHeight 0).
Proof.
  split.
  - apply (proj1 (construction_checks (-3) 0 null_4x4 None None false false)).
  - apply (proj2 (construction_checks 0 0 null_4x4 (Some 8%Z) (Some 0%Z) false false)).
    right. cbn. lia.
Defined.

(** ** Truncation and ranges *)

Lemma int_nonneg (x : Q) : 0 <= x -> Py.int x = Qfloor x.
Proof.
  destruct x as [n d]. unfold Qle, Py.int, Qfloor; cbn.
  intros H. apply Z.quot_div_nonneg; lia.
Qed.

Lemma int_nonpos (x : Q) : x <= 0 -> Py.int x = Qceiling x.
Proof.
  destruct x as [n d]. unfold Qle, Py.int, Qceiling, Qfloor; cbn.
  intros H.
  replace n with (- - n)%Z at 1 by lia.
  rewrite Z.quot_opp_l by lia.
  f_equal. apply Z.quot_div_nonneg; lia.
Qed.

Lemma int_comp (x y : Q) : x == y -> Py.int x = Py.int y.
Proof.
  intros H. destruct (Qlt_le_dec x 0) as [Hx|Hx].
  - rewrite !int_nonpos by lra. now rewrite H.
  - rewrite !int_nonneg by lra. now rewrite H.
Qed.

Lemma int_inject_Z (z : Z) : Py.int (inject_Z z) = z.
Proof. unfold Py.int, inject_Z; cbn. apply Z.quot_1_r. Qed.

Lemma int_of_integer (x : Q) (z : Z) : x == inject_Z z -> Py.int x = z.
Proof. intros H. rewrite (int_comp _ _ H). apply int_inject_Z. Qed.

Lemma range_two (a b : Z) : (b - a = 2)%Z -> Py.range a b = [a; (a + 1)%Z].
Proof.
  intros H. unfold Py.range. rewrite H.
  change (Z.to_nat 2) with 2%nat. cbn. f_equal. lia.
Qed.

(** ** Running a draw on one pixel *)

Lemma blend_run (c : Canvas) (px py : Z) (f dr dg db : Q) (ij : nat * nat) :
  locate (_canvas c) px py = Some ij ->
  blend px py f dr dg db c =
    (inr tt, drawn c ij (fst (composite f dr dg db (read (_canvas c) ij)))
                   (call_set px py (snd (composite f dr dg db (read (_canvas c) ij))))).
Proof.
  intros H. unfold blend, bind, gets. rewrite H.
  destruct (composite f dr dg db (read (_canvas c) ij)) as [q [[r g] b]].
  reflexivity.
Qed.

Lemma set_direct_run (c : Canvas) (dx dy : Z) (dr dg db : Q) (ij : nat * nat) :
  locate (_canvas c) dx dy = Some ij ->
  set_direct dx dy dr dg db c =
    (inr tt, drawn c ij (mkPixel dr dg db 1) (CallSet dx dy dr dg db)).
Proof.
  intros H. unfold set_direct, bind, gets. rewrite H. reflexivity.
Qed.

Lemma np_index_in_range (n : nat) (i : Z) :
  (0 <= i < Z.of_nat n)%Z -> Py.np_index n i = Some (Z.to_nat i).
Proof.
  intros [H0 H1]. unfold Py.np_index.
  apply Z.leb_le in H0. apply Z.ltb_lt in H1. now rewrite H0, H1.
Qed.

Lemma locate_in_range (c : Canvas) (x y : Z) :
  shape_inv c ->
  (0 <= x < width (_display c))%Z -> (0 <= y < height (_display c))%Z ->
  locate (_canvas c) x y = Some (Z.to_nat x, Z.to_nat y).
Proof.
  intros [Hlen Hcols] Hx Hy. unfold locate.
  rewrite np_index_in_range by (rewrite Hlen; lia).
  destruct (lookup_lt_is_Some_2 (_canvas c) (Z.to_nat x)) as [col Hcol];
    [rewrite Hlen; lia|].
  rewrite Hcol.
  eapply Forall_lookup_1 in Hcols; [|exact Hcol]. cbn beta in Hcols.
  rewrite np_index_in_range by (rewrite Hcols; lia).
  reflexivity.
Qed.

Lemma np_index_lt (n : nat) (i : Z) (k : nat) :
  Py.np_index n i = Some k -> (k < n)%nat.
Proof.
  unfold Py.np_index.
  destruct ((0 <=? i)%Z && (i <? Z.of_nat n)%Z) eqn:E1.
  - apply andb_true_iff in E1 as [H0 H1].
    apply Z.leb_le in H0. apply Z.ltb_lt in H1. intros [= <-]. lia.
  - destruct ((- Z.of_nat n <=? i)%Z && (i <? 0)%Z) eqn:E2; [|discriminate].
    apply andb_true_iff in E2 as [H0 H1].
    apply Z.leb_le in H0. apply Z.ltb_lt in H1. intros [= <-]. lia.
Qed.

(** Reading back the entry a draw stored. *)
Lemma pixel_at_drawn (c : Canvas) (x y : Z) (ij : nat * nat) (q : Pixel)
    (k : SinkCall) :
  locate (_canvas c) x y = Some ij ->
  pixel_at (drawn c ij q k) x y = Some q.
Proof.
  unfold pixel_at, drawn, locate, read, write; cbn [_canvas].
  rewrite length_alter.
  destruct (Py.np_index (length (_canvas c)) x) as [i|]; [|discriminate].
  destruct (_canvas c !! i) as [col|] eqn:Ecol; [|discriminate].
  destruct (Py.np_index (length col) y) as [j|] eqn:Ej; [|discriminate].
  intros [= <-]. cbn [fst snd].
  rewrite !list_lookup_alter_eq, Ecol. cbn.
  rewrite length_insert, Ej. cbn.
  rewrite list_lookup_alter_eq, Ecol. cbn.
  rewrite list_lookup_insert_eq by (eapply np_index_lt; exact Ej).
  reflexivity.
Qed.

(** The two ways the loop body goes for a cell whose coordinates need no
    [IndexError]: skipped on a non-positive area, blended otherwise. *)
Lemma paint_cell_skip (width height : Z) (xwrap ywrap : bool)
    (dxl dxr dyt dyb dr dg db : Q) (px py : Z) :
  cell_area dxl dxr dyt dyb px py <= 0 ->
  paint_cell width height xwrap ywrap dxl dxr dyt dyb dr dg db px py = ret tt.
Proof.
  intros H. unfold paint_cell. apply Qle_bool_iff in H. now rewrite H.
Qed.

Lemma paint_cell_blend (width height : Z) (xwrap ywrap : bool)
    (dxl dxr dyt dyb dr dg db : Q) (px py px' py' : Z) :
  0 < cell_area dxl dxr dyt dyb px py <= 1 ->
  wrap_or_skip px width xwrap = Some px' ->
  wrap_or_skip py height ywrap = Some py' ->
  paint_cell width height xwrap ywrap dxl dxr dyt dyb dr dg db px py
    = blend px' py' (cell_area dxl dxr dyt dyb px py) dr dg db.
Proof.
  intros [H0 H1] Hx Hy. unfold paint_cell.
  apply Qle_bool_false in H0. rewrite H0.
  apply Qltb_ge in H1. rewrite H1, Hx, Hy. reflexivity.
Qed.


Lemma cell_area_overlap (dxl dxr dyt dyb : Q) (px py : Z) :
  cell_area dxl dxr dyt dyb px py = overlap dxl dxr px * overlap dyt dyb py.
Proof. reflexivity. Qed.

Lemma Qabs_of (v w : Q) : v == w -> 0 <= w -> Qabs v == w.
Proof. intros H Hw. rewrite H. apply Qabs_pos, Hw. Qed.

(** A span from the integer [a] to [a + 1] covers the cell [a] and none
    of the cell [a + 1]. *)
Lemma overlap_unit_hit (l r : Q) (a : Z) :
  l == inject_Z a -> r == inject_Z a + 1 -> overlap l r a == 1.
Proof.
  intros Hl Hr. unfold overlap.
  rewrite !inject_Z_plus. change (inject_Z 1) with 1. change (inject_Z 0) with 0.
  apply Qabs_of; [|lra].
  destruct (min_spec r (inject_Z a + 1)) as [[? ->]|[? ->]];
    destruct (max_spec l (inject_Z a + 0)) as [[? ->]|[? ->]]; lra.
Qed.

Lemma overlap_unit_miss (l r : Q) (a : Z) :
  l == inject_Z a -> r == inject_Z a + 1 -> overlap l r (a + 1) == 0.
Proof.
  intros Hl Hr. unfold overlap.
  rewrite !inject_Z_plus. change (inject_Z 1) with 1. change (inject_Z 0) with 0.
  apply Qabs_of; [|lra].
  destruct (min_spec r (inject_Z a + 1 + 1)) as [[? ->]|[? ->]];
    destruct (max_spec l (inject_Z a + 1 + 0)) as [[? ->]|[? ->]]; lra.
Qed.

(** ** The compositing rule *)

Lemma cap1_eq (v : Q) : v <= 1 -> cap1 v == v.
Proof. intros H. destruct (cap1_spec v) as [[? ->]|[? ->]]; lra. Qed.

(** One channel of a draw with factor 1, on either branch. *)
Lemma overwrite_additive (f d c : Q) :
  f == 1 -> c == 0 -> c + f * d == d.
Proof. intros Hf Hc. rewrite Hf, Hc. ring. Qed.

Lemma overwrite_saturating (f d c cov : Q) :
  f == 1 -> d <= 1 -> Py.min ((1 - f) / cov * c + f * d) 1 == d.
Proof.
  intros Hf Hd.
  assert ((1 - f) / cov * c + f * d == d) as Hv.
  { rewrite Hf. unfold Qdiv. ring. }
  destruct (min_spec ((1 - f) / cov * c + f * d) 1) as [[? ->]|[? ->]]; lra.
Qed.

(** The rule with a factor equal to 1 overwrites a valid entry. *)
Lemma composite_overwrites (f dr dg db : Q) (p : Pixel) :
  f == 1 -> in_unit dr -> in_unit dg -> in_unit db -> pixel_inv p ->
  pixel_eq (fst (composite f dr dg db p)) (mkPixel dr dg db 1) /\
  colour_eq (snd (composite f dr dg db p)) (dr, dg, db).
Proof.
  unfold in_unit. intros Hf Hr Hg Hb (Ir & Ig & Ib & If).
  destruct (composite_branch f p) as [Hadd|[Hne Hlt]].
  - rewrite composite_additive by assumption.
    assert (pf p == 0) as H0 by (destruct Hadd; lra).
    pose proof (overwrite_additive f dr (pr p) Hf ltac:(lra)) as Er.
    pose proof (overwrite_additive f dg (pg p) Hf ltac:(lra)) as Eg.
    pose proof (overwrite_additive f db (pb p) Hf ltac:(lra)) as Eb.
    unfold pixel_eq, colour_eq; cbn.
    rewrite !cap1_eq by lra. repeat split; lra.
  - rewrite composite_saturating by assumption.
    pose proof (overwrite_saturating f dr (pr p) (pf p) Hf ltac:(lra)) as Er.
    pose proof (overwrite_saturating f dg (pg p) (pf p) Hf ltac:(lra)) as Eg.
    pose proof (overwrite_saturating f db (pb p) (pf p) Hf ltac:(lra)) as Eb.
    unfold pixel_eq, colour_eq; cbn.
    rewrite !cap1_eq by lra. repeat split; lra.
Qed.

Lemma pixel_at_inv (c : Canvas) (x y : Z) (p : Pixel) :
  buffer_inv (_canvas c) -> pixel_at c x y = Some p -> pixel_inv p.
Proof.
  unfold pixel_at. intros Hbuf H.
  destruct (locate (_canvas c) x y) as [ij|]; [|discriminate].
  injection H as <-. now apply read_inv.
Qed.

(** C2.  Whatever a pixel [canvas[x][y]] of the buffer of a reachable
    canvas holds, the compositing rule with factor 1 and a draw colour in
    [[0, 1]] gives coverage 1 and exactly the draw colour, and that colour
    to push to the display; and blending with factor 1 into [canvas[x][y]]
    leaves the pixel holding that result. *)
Theorem full_coverage_draw_overwrites
    (c : Canvas) (x y : Z) (p : Pixel) (dr dg db : Q) :
  reachable c -> pixel_at c x y = Some p ->
  in_unit dr -> in_unit dg -> in_unit db ->
  pixel_eq (fst (composite 1 dr dg db p)) (mkPixel dr dg db 1) /\
  colour_eq (snd (composite 1 dr dg db p)) (dr, dg, db) /\
  pixel_at (snd (blend x y 1 dr dg db c)) x y
    = Some (fst (composite 1 dr dg db p)).
Proof.
  intros Hreach Hp Hr Hg Hb.
  destruct (reachable_inv c Hreach) as [old (Hbuf & _)].
  destruct (composite_overwrites 1 dr dg db p) as [Hq Hrgb];
    try assumption; [reflexivity | eapply pixel_at_inv; eassumption |].
  split; [exact Hq|]. split; [exact Hrgb|].
  unfold pixel_at in Hp.
  destruct (locate (_canvas c) x y) as [ij|] eqn:Hloc; [|discriminate].
  injection Hp as <-.
  rewrite (blend_run c x y 1 dr dg db ij Hloc). cbn [snd].
  now apply pixel_at_drawn.
Qed.

Lemma full_coverage_draw_overwrites_witness :
  reachable painted_4x4 /\
  pixel_at painted_4x4 0 0
    = Some (read (_canvas painted_4x4) (0%nat, 0%nat)) /\
  pixel_eq (fst (composite 1 (1 # 3) 0 1 (read (_canvas painted_4x4) (0%nat, 0%nat))))
           (mkPixel (1 # 3) 0 1 1) /\
  colour_eq (snd (composite 1 (1 # 3) 0 1 (read (_canvas painted_4x4) (0%nat, 0%nat))))
            (1 # 3, 0, 1) /\
  pixel_at (snd (blend 0 0 1 (1 # 3) 0 1 painted_4x4)) 0 0
    = Some (fst (composite 1 (1 # 3) 0 1 (read (_canvas painted_4x4) (0%nat, 0%nat)))).
Proof.
  assert (reachable painted_4x4) as Hreach.
  { apply reachable_run_ops.
    apply (reachable_init null_4x4 None None true false). reflexivity. }
  split; [exact Hreach|]. split; [reflexivity|].
  apply (full_coverage_draw_overwrites painted_4x4 0 0); try assumption.
  - reflexivity.
  - unfold in_unit. split; vm_compute; discriminate.
  - unfold in_unit. split; vm_compute; discriminate.
  - unfold in_unit. split; vm_compute; discriminate.
Defined.

(** C3.  From an empty entry, the rule with factor [f1] and colour [c1]
    and then with factor [f2] and colour [c2], where [f1 > 0], [f2 > 0] and
    [f1 + f2 <= 1], stores coverage [f1 + f2] and, in each channel,
    [f1 * c1 + f2 * c2]. *)
Theorem two_draws_add_over_black (f1 f2 r1 g1 b1 r2 g2 b2 : Q) :
  0 < f1 -> 0 < f2 -> f1 + f2 <= 1 ->
  in_unit r1 -> in_unit g1 -> in_unit b1 ->
  in_unit r2 -> in_unit g2 -> in_unit b2 ->
  pixel_eq
    (fst (composite f2 r2 g2 b2 (fst (composite f1 r1 g1 b1 zero_pixel))))
    (mkPixel (f1 * r1 + f2 * r2) (f1 * g1 + f2 * g2) (f1 * b1 + f2 * b2)
             (f1 + f2)).
Proof.
  unfold in_unit. intros H1 H2 H12 Hr1 Hg1 Hb1 Hr2 Hg2 Hb2.
  rewrite (composite_additive f1) by (left; reflexivity).
  cbn [fst zero_pixel pr pg pb pf].
  assert (f1 * r1 <= f1) by (apply Qmul_le_self; lra).
  assert (f1 * g1 <= f1) by (apply Qmul_le_self; lra).
  assert (f1 * b1 <= f1) by (apply Qmul_le_self; lra).
  assert (f2 * r2 <= f2) by (apply Qmul_le_self; lra).
  assert (f2 * g2 <= f2) by (apply Qmul_le_self; lra).
  assert (f2 * b2 <= f2) by (apply Qmul_le_self; lra).
  pose proof (cap1_eq (0 + f1 * r1) ltac:(lra)) as Er.
  pose proof (cap1_eq (0 + f1 * g1) ltac:(lra)) as Eg.
  pose proof (cap1_eq (0 + f1 * b1) ltac:(lra)) as Eb.
  pose proof (cap1_eq (f1 + 0) ltac:(lra)) as Ef.
  rewrite composite_additive by (right; cbn [pf]; lra).
  unfold pixel_eq; cbn [fst pr pg pb pf].
  rewrite !cap1_eq by lra. repeat split; lra.
Qed.

Lemma two_draws_add_over_black_witness :
  pixel_eq
    (fst (composite (1 # 2) 0 1 (1 # 2)
            (fst (composite (1 # 4) 1 0 (1 # 2) zero_pixel))))
    (mkPixel ((1 # 4) * 1 + (1 # 2) * 0) ((1 # 4) * 0 + (1 # 2) * 1)
             ((1 # 4) * (1 # 2) + (1 # 2) * (1 # 2)) ((1 # 4) + (1 # 2))).
Proof.
  apply (two_draws_add_over_black (1 # 4) (1 # 2) 1 0 (1 # 2) 0 1 (1 # 2));
    unfold in_unit; try split; vm_compute; try reflexivity; discriminate.
Defined.

(** ** A square of side 1 at integer coordinates outside the fast path *)

Lemma offsets_unit (scale : Q) :
  scale == 1 -> offsets scale = (inject_Z 0, scale - inject_Z 0).
Proof.
  intros Hs. unfold offsets.
  rewrite (int_of_integer scale 1) by exact Hs.
  change (negb (Z.land 1 1 =? 0)%Z) with true. cbn iota.
  rewrite (int_of_integer _ 0); [reflexivity|].
  change (inject_Z 0) with 0.
  assert ((scale - 1) / 2 == 0) as Hh by (rewrite Hs; reflexivity).
  destruct (max_spec 0 ((scale - 1) / 2)) as [[? ->]|[? ->]]; lra.
Qed.

(** Only the cell [(a, j)] of the four visited is painted. *)
Lemma paint_square_unit (width height : Z) (xwrap ywrap : bool)
    (dx dy dr dg db scale : Q) (a j : Z) (c : Canvas) :
  scale == 1 -> dx == inject_Z a -> dy == inject_Z j ->
  paint_square width height xwrap ywrap dx dy dr dg db scale c =
  paint_cell width height xwrap ywrap
             (dx - inject_Z 0) (dx + (scale - inject_Z 0))
             (dy - inject_Z 0) (dy + (scale - inject_Z 0)) dr dg db a j c.
Proof.
  intros Hs Hx Hy. unfold paint_square. rewrite (offsets_unit scale Hs).
  set (dxl := dx - inject_Z 0). set (dxr := dx + (scale - inject_Z 0)).
  set (dyt := dy - inject_Z 0). set (dyb := dy + (scale - inject_Z 0)).
  assert (dxl == inject_Z a) as Hxl
    by (unfold dxl; change (inject_Z 0) with 0; lra).
  assert (dxr == inject_Z a + 1) as Hxr
    by (unfold dxr; change (inject_Z 0) with 0; lra).
  assert (dyt == inject_Z j) as Hyt
    by (unfold dyt; change (inject_Z 0) with 0; lra).
  assert (dyb == inject_Z j + 1) as Hyb
    by (unfold dyb; change (inject_Z 0) with 0; lra).
  rewrite (int_of_integer dxl a Hxl).
  rewrite (int_of_integer dxr (a + 1))
    by (rewrite inject_Z_plus; exact Hxr).
  rewrite (int_of_integer dyt j Hyt).
  rewrite (int_of_integer dyb (j + 1))
    by (rewrite inject_Z_plus; exact Hyb).
  rewrite (range_two a) by lia. rewrite (range_two j) by lia.
  cbn [for_].
  pose proof (overlap_unit_hit dxl dxr a Hxl Hxr) as Xhit.
  pose proof (overlap_unit_miss dxl dxr a Hxl Hxr) as Xmiss.
  pose proof (overlap_unit_hit dyt dyb j Hyt Hyb) as Yhit.
  pose proof (overlap_unit_miss dyt dyb j Hyt Hyb) as Ymiss.
  rewrite (paint_cell_skip _ _ _ _ _ _ _ _ _ _ _ a (j + 1))
    by (rewrite cell_area_overlap, Ymiss; lra).
  rewrite (paint_cell_skip _ _ _ _ _ _ _ _ _ _ _ (a + 1) j)
    by (rewrite cell_area_overlap, Xmiss; lra).
  rewrite (paint_cell_skip _ _ _ _ _ _ _ _ _ _ _ (a + 1) (j + 1))
    by (rewrite cell_area_overlap, Xmiss; lra).
  unfold bind at 1. unfold bind at 1.
  destruct (paint_cell width height xwrap ywrap dxl dxr dyt dyb dr dg db a j c)
    as [[e|[]] c']; reflexivity.
Qed.

(** ** Canvases equal up to the value of their numbers *)

Lemma pixel_eq_refl (p : Pixel) : pixel_eq p p.
Proof. unfold pixel_eq. repeat split; reflexivity. Qed.

Lemma call_eq_refl (k : SinkCall) : call_eq k k.
Proof.
  destruct k; cbn; auto. unfold colour_eq; cbn. repeat split; reflexivity.
Qed.

Lemma Forall2_refl_on {A} (R : A -> A -> Prop) (l : list A) :
  (forall a, R a a) -> Forall2 R l l.
Proof. intros HR. induction l; constructor; auto. Qed.

Lemma drawn_eq (c : Canvas) (ij : nat * nat) (q q' : Pixel) (k k' : SinkCall) :
  pixel_eq q q' -> call_eq k k' -> canvas_eq (drawn c ij q k) (drawn c ij q' k').
Proof.
  intros Hq Hk. unfold canvas_eq, drawn, display_eq; cbn.
  repeat split; try reflexivity.
  - apply Forall2_app.
    + apply Forall2_refl_on, call_eq_refl.
    + constructor; [exact Hk | constructor].
  - unfold write. apply Forall2_alter.
    + apply Forall2_refl_on. intros col.
      apply Forall2_refl_on, pixel_eq_refl.
    + intros col col' Hcol Hcol' _.
      assert (col' = col) as -> by congruence.
      apply Forall2_insert; [|exact Hq].
      apply Forall2_refl_on, pixel_eq_refl.
Qed.

Lemma wrap_or_skip_in_range (p size : Z) (wrapping : bool) :
  (0 <= p < size)%Z -> wrap_or_skip p size wrapping = Some p.
Proof.
  intros [H0 H1]. unfold wrap_or_skip.
  assert ((p <? 0)%Z || (p >=? size)%Z = false) as ->; [|reflexivity].
  apply orb_false_iff. split; [now apply Z.ltb_ge|].
  rewrite Z.geb_leb. apply Z.leb_gt. lia.
Qed.

(** [set] on the fast path: side 1, integer coordinates on the grid. *)
Lemma Canvas_set_exact (c : Canvas) (x y r g b s : Q) (a j : Z) :
  shape_inv c ->
  s * _scale c == 1 -> x * _scale c == inject_Z a -> y * _scale c == inject_Z j ->
  (0 <= a < width (_display c))%Z -> (0 <= j < height (_display c))%Z ->
  Canvas_set x y r g b s c =
    (inr tt, drawn c (Z.to_nat a, Z.to_nat j)
                   (mkPixel (clamp01 r) (clamp01 g) (clamp01 b) 1)
                   (CallSet a j (clamp01 r) (clamp01 g) (clamp01 b))).
Proof.
  intros Hshape Hs Hx Hy Ha Hj. unfold Canvas_set, bind, gets, id.
  assert (Qle_bool (s * _scale c) 0 = false) as -> by (apply Qle_bool_false; lra).
  rewrite (int_of_integer _ a Hx), (int_of_integer _ j Hy).
  assert (Qeq_bool (s * _scale c) 1 = true) as -> by now apply Qeq_bool_iff.
  assert (Qeq_bool (inject_Z a) (x * _scale c) = true) as ->
    by (apply Qeq_bool_iff; now symmetry).
  assert (Qeq_bool (inject_Z j) (y * _scale c) = true) as ->
    by (apply Qeq_bool_iff; now symmetry).
  assert (Qle_bool 0 (x * _scale c) = true) as ->.
  { apply Qle_bool_iff. rewrite Hx. change 0 with (inject_Z 0).
    rewrite <- Zle_Qle. lia. }
  assert (Py.Qltb (x * _scale c) (inject_Z (width (_display c))) = true) as ->.
  { apply Qltb_lt. rewrite Hx. rewrite <- Zlt_Qlt. lia. }
  assert (Qle_bool 0 (y * _scale c) = true) as ->.
  { apply Qle_bool_iff. rewrite Hy. change 0 with (inject_Z 0).
    rewrite <- Zle_Qle. lia. }
  assert (Py.Qltb (y * _scale c) (inject_Z (height (_display c))) = true) as ->.
  { apply Qltb_lt. rewrite Hy. rewrite <- Zlt_Qlt. lia. }
  cbn [andb].
  apply set_direct_run. apply locate_in_range; assumption.
Qed.

(** [set] with side 1 and integer coordinates, the first negative: the
    last branch, where only the cell at those coordinates is painted. *)
Lemma Canvas_set_left_of_grid (c : Canvas) (x y r g b s : Q) (a j : Z) :
  s * _scale c == 1 -> x * _scale c == inject_Z a -> y * _scale c == inject_Z j ->
  (a < 0)%Z ->
  Canvas_set x y r g b s c =
    paint_cell (width (_display c)) (height (_display c)) (_xwrap c) (_ywrap c)
               (x * _scale c - inject_Z 0) (x * _scale c + (s * _scale c - inject_Z 0))
               (y * _scale c - inject_Z 0) (y * _scale c + (s * _scale c - inject_Z 0))
               (clamp01 r) (clamp01 g) (clamp01 b) a j c.
Proof.
  intros Hs Hx Hy Ha. unfold Canvas_set, bind, gets, id.
  assert (Qle_bool (s * _scale c) 0 = false) as -> by (apply Qle_bool_false; lra).
  assert (Qle_bool 0 (x * _scale c) = false) as ->.
  { apply Qle_bool_false. rewrite Hx. change 0 with (inject_Z 0).
    rewrite <- Zlt_Qlt. exact Ha. }
  assert (Py.Qltb (s * _scale c) 1 = false) as -> by (apply Qltb_ge; lra).
  rewrite !andb_false_r. cbn [andb].
  now apply paint_square_unit.
Qed.

(** ** The footprint of a general draw *)


Lemma in_range (a b p : Z) : In p (Py.range a b) <-> (a <= p < b)%Z.
Proof.
  unfold Py.range. rewrite in_map_iff. split.
  - intros (i & <- & Hi). apply in_seq in Hi. lia.
  - intros H. exists (Z.to_nat (p - a)). split; [lia|].
    apply in_seq. lia.
Qed.

(** On a span that starts at a non-negative coordinate, the overlap the
    loop computes for a cell it visits is the length of the
    intersection. *)
Lemma overlap_is_intersection (lo hi : Q) (p : Z) :
  0 <= lo -> lo <= hi ->
  In p (Py.range (Py.int lo) (Py.int hi + 1)) ->
  overlap lo hi p == intersection_length lo hi p.
Proof.
  intros Hlo Hhi Hin. apply in_range in Hin.
  rewrite !int_nonneg in Hin by lra.
  assert (lo < inject_Z p + 1) as H1.
  { pose proof (Qlt_floor lo) as Hfl. rewrite inject_Z_plus in Hfl.
    change (inject_Z 1) with 1 in Hfl.
    assert (inject_Z (Qfloor lo) <= inject_Z p) by (rewrite <- Zle_Qle; lia).
    lra. }
  assert (inject_Z p <= hi) as H2.
  { pose proof (Qfloor_le hi).
    assert (inject_Z p <= inject_Z (Qfloor hi)) by (rewrite <- Zle_Qle; lia).
    lra. }
  unfold overlap, intersection_length.
  rewrite !inject_Z_plus. change (inject_Z 1) with 1. change (inject_Z 0) with 0.
  set (q := inject_Z p) in *.
  assert (0 <= Py.min hi (q + 1) - Py.max lo (q + 0)) as Hpos.
  { destruct (min_spec hi (q + 1)) as [[? ->]|[? ->]];
      destruct (max_spec lo (q + 0)) as [[? ->]|[? ->]]; lra. }
  rewrite Qabs_pos by exact Hpos.
  destruct (min_spec hi (q + 1)) as [[? Em]|[? Em]]; rewrite Em in *;
    destruct (max_spec lo (q + 0)) as [[? Ea]|[? Ea]]; rewrite Ea in *;
    destruct (max_spec lo q) as [[? ->]|[? ->]];
    match goal with |- _ == Py.max 0 ?v =>
      destruct (max_spec 0 v) as [[? ->]|[? ->]] end; lra.
Qed.

(** So for a region with non-negative top-left corner, the area computed
    for a visited cell is the area of its intersection with the region. *)
Lemma cell_area_is_intersection (dxl dxr dyt dyb : Q) (px py : Z) :
  0 <= dxl -> dxl <= dxr -> 0 <= dyt -> dyt <= dyb ->
  In px (Py.range (Py.int dxl) (Py.int dxr + 1)) ->
  In py (Py.range (Py.int dyt) (Py.int dyb + 1)) ->
  cell_area dxl dxr dyt dyb px py == intersection_area dxl dxr dyt dyb px py.
Proof.
  intros. rewrite cell_area_overlap. unfold intersection_area.
  rewrite (overlap_is_intersection dxl dxr px) by assumption.
  rewrite (overlap_is_intersection dyt dyb py) by assumption.
  reflexivity.
Qed.

(** C4, at [set(-1.5, 0, 1, 1, 1, 1.0)] on a fresh canvas over a 4 x 4
    [NullDisplay]: the offsets are 0 and 1, so the region is
    [[-3/2, -1/2] x [0, 1]], wholly left of the grid; the loops visit the
    cell [(0, 0)]; its intersection with the region has area 0, but the
    factor computed for it is 1/2, and the call leaves [canvas[0][0]] with
    coverage 1/2 and pushes that pixel to the display. *)
Theorem square_left_of_grid_paints_column_0 :
  let c := canvas_4x4 false false in
  let scale := 1 * _scale c in
  let dxl := (-3 # 2) * _scale c - fst (offsets scale) in
  let dxr := (-3 # 2) * _scale c + snd (offsets scale) in
  let dyt := 0 * _scale c - fst (offsets scale) in
  let dyb := 0 * _scale c + snd (offsets scale) in
  (fst (offsets scale) == 0 /\ snd (offsets scale) == 1) /\
  (dxl == -3 # 2 /\ dxr == -1 # 2 /\ dyt == 0 /\ dyb == 1) /\
  (In 0%Z (Py.range (Py.int dxl) (Py.int dxr + 1)) /\
   In 0%Z (Py.range (Py.int dyt) (Py.int dyb + 1))) /\
  intersection_area dxl dxr dyt dyb 0 0 == 0 /\
  cell_area dxl dxr dyt dyb 0 0 == 1 # 2 /\
  (exists q,
     pixel_at (snd (Canvas_set (-3 # 2) 0 1 1 1 1 c)) 0 0 = Some q /\
     pixel_eq q (mkPixel (1 # 2) (1 # 2) (1 # 2) (1 # 2))) /\
  Forall2 call_eq (calls (_display (snd (Canvas_set (-3 # 2) 0 1 1 1 1 c))))
          [CallSet 0 0 (1 # 2) (1 # 2) (1 # 2)].
Proof.
  cbv zeta.
  split; [split; vm_compute; reflexivity|].
  split; [repeat split; vm_compute; reflexivity|].
  split; [split; vm_compute; tauto|].
  split; [vm_compute; reflexivity|].
  split; [vm_compute; reflexivity|].
  split.
  - eexists. split; [vm_compute; reflexivity|].
    unfold pixel_eq; cbn. repeat split; vm_compute; reflexivity.
  - vm_compute. constructor; [|constructor].
    repeat split; reflexivity.
Qed.

(** ** Two draws of the documentation, on a 4 x 4 grid *)

(** A draw of side 1 at integer coordinates overwrites one pixel and makes
    one call on the display. *)
Example exact_pixel_draw :
  let c := snd (Canvas_set 1 1 1 0 0 1 (canvas_4x4 false false)) in
  pixel_at c 1 1 = Some (mkPixel 1 0 0 1) /\
  pixel_at c 1 2 = Some zero_pixel /\
  calls (_display c) = [CallSet 1 1 1 0 0].
Proof. cbv zeta. repeat split; vm_compute; reflexivity. Qed.

(** A draw of side 1 centred on a corner covers a quarter of each of the
    four pixels around it. *)
Example quarter_coverage_draw :
  let c := snd (Canvas_set (3 # 2) (3 # 2) 0 1 0 1 (canvas_4x4 false false)) in
  Forall (fun xy =>
            exists q, pixel_at c (fst xy) (snd xy) = Some q /\
                      pixel_eq q (mkPixel 0 (1 # 4) 0 (1 # 4)))
         [(1, 1); (1, 2); (2, 1); (2, 2)]%Z.
Proof.
  cbv zeta.
  repeat constructor;
    (eexists; split; [vm_compute; reflexivity|];
     unfold pixel_eq; cbn; repeat split; vm_compute; reflexivity).
Qed.

(** * Further properties *)

(** ** Invariants kept by every draw

    A predicate on the canvas kept by the two ways a pixel is drawn, the
    blend and the direct store, is kept by [set] and [set_image]. *)

Section DrawInvariant.
Context (I : Canvas -> Prop).
Context (Hblend : forall c ij px py f dr dg db,
  I c -> 0 <= f <= 1 -> in_unit dr -> in_unit dg -> in_unit db ->
  I (drawn c ij (fst (composite f dr dg db (read (_canvas c) ij)))
           (call_set px py (snd (composite f dr dg db (read (_canvas c) ij)))))).
Context (Hdirect : forall c ij dx dy dr dg db,
  I c -> in_unit dr -> in_unit dg -> in_unit db ->
  I (drawn c ij (mkPixel dr dg db 1) (CallSet dx dy dr dg db))).

Lemma blend_keeps (px py : Z) (f dr dg db : Q) :
  0 <= f <= 1 -> in_unit dr -> in_unit dg -> in_unit db ->
  preserves I (blend px py f dr dg db).
Proof.
  intros Hf Hr Hg Hb c Hc.
  destruct (locate (_canvas c) px py) as [ij|] eqn:Hloc.
  - rewrite (blend_run c px py f dr dg db ij Hloc). cbn [snd].
    now apply Hblend.
  - unfold blend, bind, gets. rewrite Hloc. exact Hc.
Qed.

Lemma set_direct_keeps (dx dy : Z) (dr dg db : Q) :
  in_unit dr -> in_unit dg -> in_unit db ->
  preserves I (set_direct dx dy dr dg db).
Proof.
  intros Hr Hg Hb c Hc.
  destruct (locate (_canvas c) dx dy) as [ij|] eqn:Hloc.
  - rewrite (set_direct_run c dx dy dr dg db ij Hloc). cbn [snd].
    now apply Hdirect.
  - unfold set_direct, bind, gets. rewrite Hloc. exact Hc.
Qed.

Lemma paint_square_keeps (width height : Z) (xwrap ywrap : bool)
    (dx dy dr dg db scale : Q) :
  in_unit dr -> in_unit dg -> in_unit db ->
  preserves I (paint_square width height xwrap ywrap dx dy dr dg db scale).
Proof.
  intros Hr Hg Hb. unfold paint_square.
  destruct (offsets scale) as [l_off r_off].
  apply preserves_for. intros px. apply preserves_for. intros py.
  unfold paint_cell.
  destruct (Qle_bool _ 0) eqn:Ea; [apply preserves_ret|].
  apply Qle_bool_false in Ea.
  destruct (wrap_or_skip px width xwrap); [|apply preserves_ret].
  destruct (wrap_or_skip py height ywrap); [|apply preserves_ret].
  apply blend_keeps; try assumption.
  case_test; lra.
Qed.

Lemma Canvas_set_keeps (x y r g b s : Q) :
  preserves I (Canvas_set x y r g b s).
Proof.
  intros c Hc. unfold Canvas_set, bind, gets, id.
  pose proof (clamp01_range r). pose proof (clamp01_range g).
  pose proof (clamp01_range b).
  destruct (Qle_bool (s * _scale c) 0) eqn:Es; [exact Hc|].
  apply Qle_bool_false in Es.
  match goal with |- context [if ?t then set_direct _ _ _ _ _ else _] =>
    destruct t end.
  { apply set_direct_keeps; assumption. }
  destruct (Py.Qltb (s * _scale c) 1) eqn:E1; cbn [andb].
  - apply Qltb_lt in E1.
    match goal with |- context [if ?t then blend _ _ _ _ _ _ else _] =>
      destruct t end.
    + apply blend_keeps; try assumption. apply square_below_1; assumption.
    + apply paint_square_keeps; assumption.
  - apply paint_square_keeps; assumption.
Qed.

Lemma Canvas_set_image_keeps (image : Image) :
  preserves I (Canvas_set_image image).
Proof.
  intros c Hc. unfold Canvas_set_image, bind, gets, id.
  destruct (get_shape (_display c)) as [dw dh].
  destruct (size image) as [iw ih].
  destruct ((iw <=? 0)%Z || (ih <=? 0)%Z); [exact Hc|].
  revert c Hc. apply preserves_for. intros ix.
  apply preserves_for. intros iy.
  destruct (getpixel image (ix, iy)) as [[rgb0 rgb1] rgb2].
  apply Canvas_set_keeps.
Qed.
End DrawInvariant.

(** ** What no method changes *)

Lemma write_lengths (canvas : list (list Pixel)) (ij : nat * nat) (p : Pixel) :
  List.map (@length Pixel) (write ij p canvas) = List.map (@length Pixel) canvas.
Proof.
  unfold write. generalize (fst ij) as i. induction canvas as [|col canvas IH];
    intros [|i]; cbn; try reflexivity.
  - now rewrite length_insert.
  - f_equal. apply IH.
Qed.

Lemma same_config_refl (c : Canvas) : same_config c c.
Proof.
  unfold same_config. repeat split; try reflexivity.
  exists []. now rewrite app_nil_r.
Qed.

Lemma same_config_drawn (c0 c : Canvas) (ij : nat * nat) (q : Pixel) (k : SinkCall) :
  same_config c0 c -> same_config c0 (drawn c ij q k).
Proof.
  unfold same_config, drawn. cbn.
  intros (? & ? & ? & ? & ? & ? & ? & ? & Hlen & new & Hcalls).
  repeat split; try assumption.
  - now rewrite write_lengths.
  - exists (new ++ [k]). now rewrite Hcalls, app_assoc.
Qed.

Lemma same_config_sent (c0 : Canvas) (k : SinkCall) :
  preserves (same_config c0) (with_display (send k)).
Proof.
  intros c. unfold same_config. cbn.
  intros (? & ? & ? & ? & ? & ? & ? & ? & Hlen & new & Hcalls).
  repeat split; try assumption.
  exists (new ++ [k]). now rewrite Hcalls, app_assoc.
Qed.

Lemma same_config_cleared (c0 : Canvas) :
  preserves (same_config c0)
            (with_canvas (List.map (List.map (fun _ => zero_pixel)))).
Proof.
  intros c. unfold same_config. cbn.
  intros (? & ? & ? & ? & ? & ? & ? & ? & Hlen & new & Hcalls).
  repeat split; try assumption; [|now exists new].
  rewrite <- Hlen. rewrite List.map_map. apply List.map_ext.
  intros col. apply List.length_map.
Qed.

Lemma run_method_same_config (c0 : Canvas) (m : Method) :
  preserves (same_config c0) (run_method m).
Proof.
  destruct m; cbn [run_method].
  - apply preserves_bind; [apply same_config_sent|].
    intros _. apply same_config_cleared.
  - apply Canvas_set_keeps; intros; now apply same_config_drawn.
  - apply Canvas_set_image_keeps; intros; now apply same_config_drawn.
  - apply same_config_sent.
  - apply preserves_bind; [apply same_config_sent|].
    intros _. apply same_config_sent.
Qed.

(** X1.  Whatever sequence of [clear], [set], [set_image], [show] and
    [quit] calls a canvas goes through, raising ones included, its logical
    size, scale and wrap flags, the class, orientation and shape of its
    display, and the shape of its buffer stay what they were; and the calls
    its display has received are the earlier ones followed by new ones. *)
Theorem configuration_is_fixed (c : Canvas) (ms : list Method) :
  same_config c (run_methods ms c).
Proof.
  unfold run_methods.
  assert (forall c', same_config c c' ->
            same_config c (fold_left (fun c m => snd (run_method m c)) ms c'))
    as H.
  { induction ms as [|m ms IH]; intros c' Hc'; cbn; [exact Hc'|].
    apply IH. now apply run_method_same_config. }
  apply H, same_config_refl.
Qed.

(** ** Coverage only grows *)

Lemma composite_coverage_grows (f dr dg db : Q) (p : Pixel) :
  0 <= f <= 1 -> pixel_inv p -> pf p <= pf (fst (composite f dr dg db p)).
Proof.
  intros Hf (_ & _ & _ & Hp).
  destruct (composite_branch f p) as [Hadd|[Hne Hlt]].
  - rewrite composite_additive by assumption. cbn.
    destruct (cap1_spec (f + pf p)) as [[? ->]|[? ->]]; lra.
  - rewrite composite_saturating by assumption. cbn.
    destruct (cap1_spec 1) as [[? ->]|[? ->]]; lra.
Qed.

Lemma Forall2_insert_right {A B} (P : A -> B -> Prop) (l : list A) (k : list B)
    (j : nat) (q : B) :
  Forall2 P l k ->
  (forall x y, l !! j = Some x -> k !! j = Some y -> P x q) ->
  Forall2 P l (<[j:=q]> k).
Proof.
  intros H. revert j. induction H as [|x y l k Hxy H IH]; intros j Hq.
  - constructor.
  - destruct j as [|j]; cbn.
    + constructor; [|exact H]. now apply (Hq x y).
    + constructor; [exact Hxy|]. apply IH. intros x' y' Hx' Hy'.
      now apply (Hq x' y').
Qed.

Lemma coverage_le_write (canvas0 canvas : list (list Pixel)) (ij : nat * nat)
    (q : Pixel) :
  coverage_le canvas0 canvas -> pf (read canvas ij) <= pf q ->
  coverage_le canvas0 (write ij q canvas).
Proof.
  intros H Hq. unfold coverage_le, write.
  apply Forall2_alter_r; [exact H|].
  intros col0 col _ Hcol Hcols.
  apply Forall2_insert_right; [exact Hcols|].
  intros p0 p Hp0 Hp.
  pose proof (Forall2_lookup_lr _ _ _ _ _ _ Hcols Hp0 Hp) as Hle. cbn in Hle.
  unfold read in Hq. rewrite Hcol, Hp in Hq. cbn in Hq. lra.
Qed.

Lemma coverage_le_refl (canvas : list (list Pixel)) : coverage_le canvas canvas.
Proof.
  apply Forall2_refl_on. intros col. apply Forall2_refl_on. intros p. lra.
Qed.

(** Entries at the same place of two buffers related entry by entry. *)
Lemma related_pixel_at (R : Pixel -> Pixel -> Prop) (c c' : Canvas) (x y : Z)
    (p : Pixel) :
  Forall2 (Forall2 R) (_canvas c) (_canvas c') ->
  pixel_at c x y = Some p ->
  exists q, pixel_at c' x y = Some q /\ R p q.
Proof.
  intros H. unfold pixel_at, locate, read.
  rewrite <- (Forall2_length _ _ _ H).
  destruct (Py.np_index (length (_canvas c)) x) as [i|]; [|discriminate].
  destruct (_canvas c !! i) as [col|] eqn:Ecol; [|discriminate].
  destruct (Forall2_lookup_l _ _ _ _ _ H Ecol) as (col' & Ecol' & Hcols).
  rewrite Ecol'. rewrite <- (Forall2_length _ _ _ Hcols).
  destruct (Py.np_index (length col) y) as [j|] eqn:Ej; [|discriminate].
  cbn [fst snd]. rewrite Ecol, Ecol'.
  destruct (lookup_lt_is_Some_2 col j (np_index_lt _ _ _ Ej)) as [p0 Ep0].
  destruct (Forall2_lookup_l _ _ _ _ _ Hcols Ep0) as (q0 & Eq0 & Hpq).
  rewrite Ep0, Eq0. cbn. intros [= <-]. now exists q0.
Qed.

Lemma draws_grow_coverage (canvas0 : list (list Pixel)) :
  (forall x y r g b s,
     preserves (fun c => buffer_inv (_canvas c) /\ coverage_le canvas0 (_canvas c))
               (Canvas_set x y r g b s)) /\
  (forall image,
     preserves (fun c => buffer_inv (_canvas c) /\ coverage_le canvas0 (_canvas c))
               (Canvas_set_image image)).
Proof.
  assert (forall c ij px py f dr dg db,
    buffer_inv (_canvas c) /\ coverage_le canvas0 (_canvas c) ->
    0 <= f <= 1 -> in_unit dr -> in_unit dg -> in_unit db ->
    buffer_inv (_canvas (drawn c ij (fst (composite f dr dg db (read (_canvas c) ij)))
           (call_set px py (snd (composite f dr dg db (read (_canvas c) ij)))))) /\
    coverage_le canvas0
      (_canvas (drawn c ij (fst (composite f dr dg db (read (_canvas c) ij)))
           (call_set px py (snd (composite f dr dg db (read (_canvas c) ij)))))))
    as Hblend.
  { intros c ij px py f dr dg db [Hbuf Hcov] Hf Hr Hg Hb. cbn [drawn _canvas].
    pose proof (read_inv _ ij Hbuf) as Hp. split.
    - apply write_inv; [|exact Hbuf]. now apply composite_inv.
    - apply coverage_le_write; [exact Hcov|].
      now apply composite_coverage_grows. }
  assert (forall c ij (dx dy : Z) dr dg db,
    buffer_inv (_canvas c) /\ coverage_le canvas0 (_canvas c) ->
    in_unit dr -> in_unit dg -> in_unit db ->
    buffer_inv (_canvas (drawn c ij (mkPixel dr dg db 1) (CallSet dx dy dr dg db))) /\
    coverage_le canvas0
      (_canvas (drawn c ij (mkPixel dr dg db 1) (CallSet dx dy dr dg db))))
    as Hdirect.
  { intros c ij dx dy dr dg db [Hbuf Hcov] Hr Hg Hb. cbn [drawn _canvas].
    pose proof (read_inv _ ij Hbuf) as (_ & _ & _ & Hp). split.
    - apply write_inv; [|exact Hbuf]. unfold pixel_inv, in_unit in *; cbn. lra.
    - apply coverage_le_write; [exact Hcov|]. cbn. exact Hp. }
  split; intros.
  - apply Canvas_set_keeps; assumption.
  - apply Canvas_set_image_keeps; assumption.
Qed.

(** X2.  On a reachable canvas, a [set] or [set_image] call, raising or
    not, leaves every entry of the buffer with at least the coverage it
    had; so an entry of coverage 1 keeps coverage 1 until [clear]. *)
Theorem coverage_never_decreases (c : Canvas) (o : Op) (x y : Z) (p : Pixel) :
  reachable c -> o <> OpClear -> pixel_at c x y = Some p ->
  exists q, pixel_at (snd (run_op o c)) x y = Some q /\
            pf p <= pf q /\ (pf p == 1 -> pf q == 1).
Proof.
  intros Hreach Ho Hp.
  destruct (reachable_inv c Hreach) as [old HI].
  pose proof (run_op_inv old o c HI) as (Hbuf' & _).
  assert (coverage_le (_canvas c) (_canvas (snd (run_op o c)))) as Hcov.
  { destruct (draws_grow_coverage (_canvas c)) as [Hset Himg].
    destruct o as [|x0 y0 r g b s|image]; [contradiction| |]; cbn [run_op].
    - apply Hset. split; [apply HI | apply coverage_le_refl].
    - apply Himg. split; [apply HI | apply coverage_le_refl]. }
  destruct (related_pixel_at _ c _ x y p Hcov Hp) as (q & Hq & Hle).
  exists q. split; [exact Hq|]. split; [exact Hle|].
  intros H1. pose proof (pixel_at_inv _ x y q Hbuf' Hq) as (_ & _ & _ & Hq1).
  lra.
Qed.

Lemma coverage_never_decreases_witness :
  exists q,
    pixel_at (snd (run_op (OpSet (1 # 2) (1 # 2) 1 1 1 (1 # 2)) painted_4x4)) 0 0
      = Some q /\
    pf (read (_canvas painted_4x4) (0%nat, 0%nat)) <= pf q /\
    (pf (read (_canvas painted_4x4) (0%nat, 0%nat)) == 1 -> pf q == 1).
Proof.
  apply (coverage_never_decreases painted_4x4
           (OpSet (1 # 2) (1 # 2) 1 1 1 (1 # 2)) 0 0).
  - apply reachable_run_ops.
    apply (reachable_init null_4x4 None None true false). reflexivity.
  - discriminate.
  - reflexivity.
Defined.

(** ** The saturating branch is a weighted average *)

Lemma saturating_channel_value (f d c cov : Q) :
  0 <= f <= 1 -> in_unit d -> 0 <= c <= cov -> 0 < cov ->
  Py.min ((1 - f) / cov * c + f * d) 1 == (1 - f) * (c / cov) + f * d /\
  (1 - f) * (c / cov) + f * d <= 1.
Proof.
  unfold in_unit. intros Hf Hd Hc Hcov.
  assert ((1 - f) / cov * c + f * d == (1 - f) * (c / cov) + f * d) as Hv
    by (field; lra).
  assert (c / cov <= 1) by (apply Qle_shift_div_r; lra).
  assert (0 <= c / cov) by (apply Qdiv_nonneg; lra).
  assert ((1 - f) * (c / cov) <= 1 - f) by (apply Qmul_le_self; lra).
  assert (f * d <= f) by (apply Qmul_le_self; lra).
  split; [|lra].
  destruct (min_spec ((1 - f) / cov * c + f * d) 1) as [[? ->]|[? ->]]; lra.
Qed.

(** X3.  When a draw of factor [f] does not fit in what is left of a valid
    entry ([1 - f < coverage]), the rule stores coverage 1 and, in each
    channel, the average of the entry's visible colour [channel / coverage]
    and the draw colour, weighted [1 - f] and [f]; that colour is what it
    pushes to the display, and the [min(..., 1.0)] of the branch never
    cuts. *)
Theorem saturating_draw_is_weighted_average (f dr dg db : Q) (p : Pixel) :
  pixel_inv p -> 0 < f <= 1 -> in_unit dr -> in_unit dg -> in_unit db ->
  1 - f < pf p ->
  let mix c d := (1 - f) * (c / pf p) + f * d in
  pixel_eq (fst (composite f dr dg db p))
           (mkPixel (mix (pr p) dr) (mix (pg p) dg) (mix (pb p) db) 1) /\
  colour_eq (snd (composite f dr dg db p))
            (mix (pr p) dr, mix (pg p) dg, mix (pb p) db) /\
  colour_le1 (mix (pr p) dr, mix (pg p) dg, mix (pb p) db).
Proof.
  intros (Ir & Ig & Ib & If) Hf Hr Hg Hb Hlt mix.
  assert (0 < pf p) as Hpos by lra.
  rewrite composite_saturating by lra.
  destruct (saturating_channel_value f dr (pr p) (pf p)) as [Er Lr]; try lra;
    try assumption.
  destruct (saturating_channel_value f dg (pg p) (pf p)) as [Eg Lg]; try lra;
    try assumption.
  destruct (saturating_channel_value f db (pb p) (pf p)) as [Eb Lb]; try lra;
    try assumption.
  unfold pixel_eq, colour_eq, colour_le1, mix; cbn.
  rewrite !cap1_eq by lra.
  repeat split; lra.
Qed.

Lemma saturating_draw_is_weighted_average_witness :
  let p := mkPixel (1 # 4) (1 # 2) 0 (1 # 2) in
  let mix c d := (1 - (3 # 4)) * (c / pf p) + (3 # 4) * d in
  pixel_eq (fst (composite (3 # 4) 1 0 1 p))
           (mkPixel (mix (pr p) 1) (mix (pg p) 0) (mix (pb p) 1) 1) /\
  colour_eq (snd (composite (3 # 4) 1 0 1 p))
            (mix (pr p) 1, mix (pg p) 0, mix (pb p) 1) /\
  colour_le1 (mix (pr p) 1, mix (pg p) 0, mix (pb p) 1).
Proof.
  apply (saturating_draw_is_weighted_average (3 # 4) 1 0 1
           (mkPixel (1 # 4) (1 # 2) 0 (1 # 2)));
    unfold pixel_inv, in_unit; cbn; repeat split;
    vm_compute; first [reflexivity | discriminate].
Defined.

(** ** Clearing *)

Lemma map_const_replicate {A B} (b : B) (l : list A) :
  List.map (fun _ => b) l = replicate (length l) b.
Proof. induction l as [|a l IH]; cbn; [reflexivity | now rewrite IH]. Qed.

Lemma cleared_buffer (canvas : list (list Pixel)) (n : nat) :
  Forall (fun col => length col = n) canvas ->
  List.map (List.map (fun _ => zero_pixel)) canvas
    = replicate (length canvas) (replicate n zero_pixel).
Proof.
  induction 1 as [|col canvas Hcol _ IH]; cbn; [reflexivity|].
  rewrite IH, map_const_replicate, Hcol. reflexivity.
Qed.

(** X4.  [clear] on a reachable canvas returns, leaves the buffer as it
    was at construction, every entry [(0, 0, 0, 0)] in the shape of the
    display, and makes exactly one call on the display, its [clear]. *)
Theorem clear_restores_the_initial_buffer (c : Canvas) :
  reachable c ->
  fst (Canvas_clear c) = inr tt /\
  _canvas (snd (Canvas_clear c))
    = replicate (Z.to_nat (width (_display c)))
                (replicate (Z.to_nat (height (_display c))) zero_pixel) /\
  calls (_display (snd (Canvas_clear c))) = calls (_display c) ++ [CallClear].
Proof.
  intros Hreach.
  destruct (reachable_inv c Hreach) as [old (_ & [Hlen Hcols] & _)].
  split; [reflexivity|]. split; [|reflexivity].
  cbn. rewrite (cleared_buffer _ _ Hcols), Hlen. reflexivity.
Qed.

Lemma clear_restores_the_initial_buffer_witness :
  fst (Canvas_clear painted_4x4) = inr tt /\
  _canvas (snd (Canvas_clear painted_4x4))
    = replicate (Z.to_nat (width (_display painted_4x4)))
                (replicate (Z.to_nat (height (_display painted_4x4))) zero_pixel) /\
  calls (_display (snd (Canvas_clear painted_4x4)))
    = calls (_display painted_4x4) ++ [CallClear].
Proof.
  apply (clear_restores_the_initial_buffer painted_4x4).
  apply reachable_run_ops.
  apply (reachable_init null_4x4 None None true false). reflexivity.
Defined.

(** ** The stored orientation *)

Lemma set_orientation_valid (d : Display) (o : Z) :
  In (orientation d) valid_orientations ->
  In (orientation (snd (set_orientation d o))) valid_orientations.
Proof.
  intros Hd. unfold set_orientation, NullDisplay_set_orientation,
    Display_set_orientation.
  destruct (class_ d); cbn [snd]; try exact Hd;
    (destruct (bad_orientation o) eqn:Eo; cbn [snd]; [exact Hd|];
     unfold orientation; cbn;
     destruct (In_dec Z.eq_dec o valid_orientations) as [Hin|Hout];
     [exact Hin | apply bad_orientation_spec in Hout; congruence]).
Qed.

(** X5.  A display of any class, from its construction on and through any
    sequence of [set_orientation] calls, accepted or refused, has a stored
    orientation among 0, 90, 180 and 270. *)
Theorem orientation_stays_valid (cls : DisplayClass) (w h : Z) (os : list Z) :
  In (orientation (set_orientations os (Display___init__ cls w h)))
     valid_orientations.
Proof.
  unfold set_orientations.
  assert (forall d, In (orientation d) valid_orientations ->
            In (orientation (fold_left (fun d o => snd (set_orientation d o)) os d))
               valid_orientations) as H.
  { induction os as [|o os IH]; intros d Hd; cbn; [exact Hd|].
    apply IH. now apply set_orientation_valid. }
  apply H. cbn. tauto.
Qed.

(** ** The scale *)





(** ** Draws that clip *)

Section Returns.
Context (I : Canvas -> Prop).

Lemma returns_ret : returns I (ret tt).
Proof. intros c Hc. split; [reflexivity | exact Hc]. Qed.

Lemma returns_bind (m : M unit) (k : unit -> M unit) :
  returns I m -> (forall a, returns I (k a)) -> returns I (bind m k).
Proof.
  intros Hm Hk c Hc. unfold bind.
  destruct (Hm c Hc) as [Hr Hc'].
  destruct (m c) as [[e|a] c']; cbn in *; [discriminate|].
  now apply Hk.
Qed.

Lemma returns_for (l : list Z) (body : Z -> M unit) :
  (forall i, returns I (body i)) -> returns I (for_ l body).
Proof.
  intros Hbody. induction l as [|i l IH]; cbn [for_].
  - apply returns_ret.
  - apply returns_bind; [apply Hbody | intros _; exact IH].
Qed.
End Returns.

Lemma drawn_shape_inv (c : Canvas) (ij : nat * nat) (q : Pixel) (k : SinkCall) :
  shape_inv c -> shape_inv (drawn c ij q k).
Proof.
  intros [Hlen Hcols]. split; cbn.
  - rewrite write_length. exact Hlen.
  - apply write_columns. exact Hcols.
Qed.

Lemma drawn_clipping (W H : Z) (c : Canvas) (ij : nat * nat) (q : Pixel)
    (k : SinkCall) :
  clipping W H c -> clipping W H (drawn c ij q k).
Proof.
  intros (Hshape & HW & HH & Hx & Hy).
  split; [now apply drawn_shape_inv|]. cbn. tauto.
Qed.

Lemma blend_returns (W H : Z) (px py : Z) (f dr dg db : Q) :
  (0 <= px < W)%Z -> (0 <= py < H)%Z ->
  returns (clipping W H) (blend px py f dr dg db).
Proof.
  intros Hx Hy c Hc. pose proof Hc as (Hshape & HW & HH & _).
  rewrite (blend_run c px py f dr dg db (Z.to_nat px, Z.to_nat py))
    by (apply locate_in_range; [assumption | lia | lia]).
  split; [reflexivity|]. now apply drawn_clipping.
Qed.

Lemma set_direct_returns (W H : Z) (dx dy : Z) (dr dg db : Q) :
  (0 <= dx < W)%Z -> (0 <= dy < H)%Z ->
  returns (clipping W H) (set_direct dx dy dr dg db).
Proof.
  intros Hx Hy c Hc. pose proof Hc as (Hshape & HW & HH & _).
  rewrite (set_direct_run c dx dy dr dg db (Z.to_nat dx, Z.to_nat dy))
    by (apply locate_in_range; [assumption | lia | lia]).
  split; [reflexivity|]. now apply drawn_clipping.
Qed.

Lemma wrap_or_skip_clipped (p size p' : Z) :
  wrap_or_skip p size false = Some p' -> (0 <= p' < size)%Z.
Proof.
  unfold wrap_or_skip.
  destruct ((p <? 0)%Z || (p >=? size)%Z) eqn:E; [discriminate|].
  apply orb_false_iff in E as [E0 E1].
  apply Z.ltb_ge in E0. rewrite Z.geb_leb in E1. apply Z.leb_gt in E1.
  intros [= <-]. lia.
Qed.

Lemma paint_square_returns (W H : Z) (dx dy dr dg db scale : Q) :
  returns (clipping W H) (paint_square W H false false dx dy dr dg db scale).
Proof.
  unfold paint_square. destruct (offsets scale) as [l_off r_off].
  apply returns_for. intros px. apply returns_for. intros py.
  unfold paint_cell.
  destruct (Qle_bool _ 0); [apply returns_ret|].
  destruct (wrap_or_skip px W false) as [px'|] eqn:Ex; [|apply returns_ret].
  destruct (wrap_or_skip py H false) as [py'|] eqn:Ey; [|apply returns_ret].
  apply blend_returns; eapply wrap_or_skip_clipped; eassumption.
Qed.

Lemma int_in_bounds (q : Q) (n : Z) :
  0 <= q -> q < inject_Z n -> (0 <= Py.int q < n)%Z.
Proof.
  intros H0 H1. rewrite int_nonneg by exact H0. split.
  - change 0%Z with (Qfloor 0). now apply Qfloor_resp_le.
  - pose proof (Qfloor_le q). rewrite Zlt_Qlt. lra.
Qed.

Lemma Canvas_set_returns (W H : Z) (x y r g b s : Q) :
  returns (clipping W H) (Canvas_set x y r g b s).
Proof.
  intros c Hc. pose proof Hc as (_ & HW & HH & Hxw & Hyw).
  unfold Canvas_set, bind, gets, id. rewrite HW, HH, Hxw, Hyw.
  destruct (Qle_bool (s * _scale c) 0); [now apply returns_ret|].
  destruct (Qle_bool 0 (x * _scale c) && Py.Qltb (x * _scale c) (inject_Z W))
    eqn:Ex;
    [apply andb_true_iff in Ex as [Ex0 Ex1];
     apply Qle_bool_iff in Ex0; apply Qltb_lt in Ex1
    |rewrite ?andb_false_r; cbn [andb]; now apply paint_square_returns].
  destruct (Qle_bool 0 (y * _scale c) && Py.Qltb (y * _scale c) (inject_Z H))
    eqn:Ey;
    [apply andb_true_iff in Ey as [Ey0 Ey1];
     apply Qle_bool_iff in Ey0; apply Qltb_lt in Ey1
    |rewrite ?andb_false_r; cbn [andb]; now apply paint_square_returns].
  rewrite !andb_true_r.
  pose proof (int_in_bounds _ _ Ex0 Ex1). pose proof (int_in_bounds _ _ Ey0 Ey1).
  match goal with |- context [if ?t then set_direct _ _ _ _ _ else _] =>
    destruct t end.
  { now apply set_direct_returns. }
  destruct (Py.Qltb (s * _scale c) 1).
  - now apply blend_returns.
  - now apply paint_square_returns.
Qed.

Lemma reachable_clipping (c : Canvas) :
  reachable c -> _xwrap c = false -> _ywrap c = false ->
  clipping (width (_display c)) (height (_display c)) c.
Proof.
  intros Hreach Hx Hy.
  destruct (reachable_inv c Hreach) as [old (_ & Hshape & _)].
  repeat split; try assumption; apply Hshape.
Qed.

(** ** Indexing the buffer off the grid *)

Lemma np_index_negative (n : nat) (i : Z) :
  (- Z.of_nat n <= i < 0)%Z -> Py.np_index n i = Some (Z.to_nat (i + Z.of_nat n)).
Proof.
  intros [H0 H1]. unfold Py.np_index.
  assert ((0 <=? i)%Z = false) as -> by (apply Z.leb_gt; lia).
  cbn [andb].
  apply Z.leb_le in H0. apply Z.ltb_lt in H1. now rewrite H0, H1.
Qed.

Lemma np_index_outside (n : nat) (i : Z) :
  (i < - Z.of_nat n \/ Z.of_nat n <= i)%Z -> Py.np_index n i = None.
Proof.
  intros H. unfold Py.np_index.
  assert ((0 <=? i)%Z && (i <? Z.of_nat n)%Z = false) as ->.
  { apply andb_false_iff. destruct H; [left; apply Z.leb_gt | right; apply Z.ltb_ge]; lia. }
  assert ((- Z.of_nat n <=? i)%Z && (i <? 0)%Z = false) as ->; [|reflexivity].
  apply andb_false_iff. destruct H; [left; apply Z.leb_gt | right; apply Z.ltb_ge]; lia.
Qed.

Lemma locate_negative_x (c : Canvas) (x y : Z) :
  shape_inv c ->
  (- width (_display c) <= x < 0)%Z -> (0 <= y < height (_display c))%Z ->
  locate (_canvas c) x y
    = Some (Z.to_nat (x + width (_display c)), Z.to_nat y).
Proof.
  intros [Hlen Hcols] Hx Hy. unfold locate.
  rewrite np_index_negative by (rewrite Hlen; lia).
  replace (Z.of_nat (length (_canvas c))) with (width (_display c))
    by (rewrite Hlen; lia).
  destruct (lookup_lt_is_Some_2 (_canvas c) (Z.to_nat (x + width (_display c))))
    as [col Hcol]; [rewrite Hlen; lia|].
  rewrite Hcol.
  eapply Forall_lookup_1 in Hcols; [|exact Hcol]. cbn beta in Hcols.
  rewrite np_index_in_range by (rewrite Hcols; lia).
  reflexivity.
Qed.

Lemma locate_outside_x (c : Canvas) (x y : Z) :
  shape_inv c -> (0 <= width (_display c))%Z ->
  (x < - width (_display c) \/ width (_display c) <= x)%Z ->
  locate (_canvas c) x y = None.
Proof.
  intros [Hlen _] HW Hx. unfold locate.
  rewrite np_index_outside by (rewrite Hlen; lia). reflexivity.
Qed.

Lemma blend_fails (c : Canvas) (px py : Z) (f dr dg db : Q) :
  locate (_canvas c) px py = None ->
  blend px py f dr dg db c = (inl IndexError, c).
Proof. intros H. unfold blend, bind, gets. now rewrite H. Qed.

Lemma wrap_or_skip_wraps (p size : Z) :
  (p < 0 \/ size <= p)%Z ->
  wrap_or_skip p size true = Some (if (p <? 0)%Z then p + size else p - size)%Z.
Proof.
  intros H. unfold wrap_or_skip.
  assert ((p <? 0)%Z || (p >=? size)%Z = true) as ->.
  { apply orb_true_iff. destruct H; [left; now apply Z.ltb_lt | right].
    apply Z.geb_le. lia. }
  destruct (p <? 0)%Z; reflexivity.
Qed.

(** [set] with side 1 and integer coordinates, the first at or beyond the
    right edge. *)
Lemma Canvas_set_right_of_grid (c : Canvas) (x y r g b s : Q) (a j : Z) :
  s * _scale c == 1 -> x * _scale c == inject_Z a -> y * _scale c == inject_Z j ->
  (width (_display c) <= a)%Z ->
  Canvas_set x y r g b s c =
    paint_cell (width (_display c)) (height (_display c)) (_xwrap c) (_ywrap c)
               (x * _scale c - inject_Z 0) (x * _scale c + (s * _scale c - inject_Z 0))
               (y * _scale c - inject_Z 0) (y * _scale c + (s * _scale c - inject_Z 0))
               (clamp01 r) (clamp01 g) (clamp01 b) a j c.
Proof.
  intros Hs Hx Hy Ha. unfold Canvas_set, bind, gets, id.
  assert (Qle_bool (s * _scale c) 0 = false) as -> by (apply Qle_bool_false; lra).
  assert (Py.Qltb (x * _scale c) (inject_Z (width (_display c))) = false) as ->.
  { apply Qltb_ge. rewrite Hx. rewrite <- Zle_Qle. exact Ha. }
  assert (Py.Qltb (s * _scale c) 1 = false) as -> by (apply Qltb_ge; lra).
  rewrite !andb_false_r. cbn [andb].
  now apply paint_square_unit.
Qed.

(** A draw of side 1 at integer coordinates, the first off the grid, on a
    canvas that wraps on [x]: one blend, of factor 1, at the wrapped
    coordinate. *)
Lemma unit_draw_wrapped (c : Canvas) (x y r g b s : Q) (a j : Z) :
  _xwrap c = true ->
  (0 <= j < height (_display c))%Z ->
  s * _scale c == 1 -> x * _scale c == inject_Z a -> y * _scale c == inject_Z j ->
  (a < 0 \/ width (_display c) <= a)%Z ->
  exists f, f == 1 /\
    Canvas_set x y r g b s c =
      blend (if (a <? 0)%Z then a + width (_display c) else a - width (_display c))
            j f (clamp01 r) (clamp01 g) (clamp01 b) c.
Proof.
  intros Hwrap Hj Hs Hx Hy Ha.
  assert (Canvas_set x y r g b s c =
    paint_cell (width (_display c)) (height (_display c)) (_xwrap c) (_ywrap c)
               (x * _scale c - inject_Z 0) (x * _scale c + (s * _scale c - inject_Z 0))
               (y * _scale c - inject_Z 0) (y * _scale c + (s * _scale c - inject_Z 0))
               (clamp01 r) (clamp01 g) (clamp01 b) a j c) as ->.
  { destruct Ha; [now apply Canvas_set_left_of_grid
                 | now apply Canvas_set_right_of_grid]. }
  set (dxl := x * _scale c - inject_Z 0).
  set (dxr := x * _scale c + (s * _scale c - inject_Z 0)).
  set (dyt := y * _scale c - inject_Z 0).
  set (dyb := y * _scale c + (s * _scale c - inject_Z 0)).
  assert (cell_area dxl dxr dyt dyb a j == 1) as Harea.
  { rewrite cell_area_overlap.
    rewrite (overlap_unit_hit dxl dxr a), (overlap_unit_hit dyt dyb j);
      unfold dxl, dxr, dyt, dyb; change (inject_Z 0) with 0; lra. }
  exists (cell_area dxl dxr dyt dyb a j). split; [exact Harea|].
  rewrite Hwrap.
  rewrite (paint_cell_blend _ _ _ _ _ _ _ _ _ _ _ a j
             (if (a <? 0)%Z then a + width (_display c) else a - width (_display c))%Z j);
    [reflexivity | lra | now apply wrap_or_skip_wraps
     | now apply wrap_or_skip_in_range].
Qed.

Lemma wrapped_once (a W : Z) :
  (0 < W)%Z -> (- W <= a < 0 \/ W <= a < 2 * W)%Z ->
  ((if (a <? 0)%Z then a + W else a - W) = a mod W)%Z.
Proof.
  intros HW Ha. destruct (a <? 0)%Z eqn:E.
  - apply Z.ltb_lt in E. apply (Z.mod_unique a W (-1)); lia.
  - apply Z.ltb_ge in E. apply (Z.mod_unique a W 1); lia.
Qed.

(** ** The pixels a draw leaves alone *)

Lemma locate_write (canvas : list (list Pixel)) (ij : nat * nat) (q : Pixel)
    (x y : Z) :
  locate (write ij q canvas) x y = locate canvas x y.
Proof.
  unfold locate, write. rewrite length_alter.
  destruct (Py.np_index (length canvas) x) as [i|]; [|reflexivity].
  rewrite list_lookup_alter.
  destruct (decide (fst ij = i)) as [->|Hne]; [|reflexivity].
  destruct (canvas !! i) as [col|]; cbn; [|reflexivity].
  now rewrite length_insert.
Qed.

Lemma read_write_other (canvas : list (list Pixel)) (ij ij' : nat * nat)
    (q : Pixel) :
  ij' <> ij -> read (write ij q canvas) ij' = read canvas ij'.
Proof.
  destruct ij as [i j], ij' as [i' j']. intros Hne.
  unfold read, write; cbn [fst snd].
  rewrite list_lookup_alter.
  destruct (decide (i = i')) as [->|Hi]; [|reflexivity].
  destruct (canvas !! i') as [col|]; cbn; [|reflexivity].
  rewrite list_lookup_insert_ne by congruence. reflexivity.
Qed.

Lemma pixel_at_drawn_other (c : Canvas) (x y : Z) (ij ij' : nat * nat)
    (q : Pixel) (k : SinkCall) :
  locate (_canvas c) x y = Some ij' -> ij' <> ij ->
  pixel_at (drawn c ij q k) x y = pixel_at c x y.
Proof.
  intros Hloc Hne. unfold pixel_at, drawn; cbn [_canvas].
  rewrite locate_write, Hloc. now rewrite read_write_other.
Qed.

(** Entries of the grid other than [(a, j)] after a draw there. *)
Lemma frame_of_drawn (c : Canvas) (a j x y : Z) (q : Pixel) (k : SinkCall) :
  shape_inv c ->
  (0 <= a)%Z -> (0 <= j)%Z ->
  (0 <= x < width (_display c))%Z -> (0 <= y < height (_display c))%Z ->
  (x, y) <> (a, j) ->
  pixel_at (drawn c (Z.to_nat a, Z.to_nat j) q k) x y = pixel_at c x y.
Proof.
  intros Hshape Ha Hj Hx Hy Hne.
  apply (pixel_at_drawn_other c x y _ (Z.to_nat x, Z.to_nat y)).
  - now apply locate_in_range.
  - intros [= Ex Ey]. apply Hne.
    apply Z2Nat.inj in Ex; [|lia..]. apply Z2Nat.inj in Ey; [|lia..].
    congruence.
Qed.

Lemma write_write (canvas : list (list Pixel)) (ij : nat * nat) (p q : Pixel) :
  write ij p (write ij q canvas) = write ij p canvas.
Proof.
  unfold write. rewrite list_alter_alter_eq.
  apply list_alter_ext; [|reflexivity].
  intros col _. cbn. apply list_insert_insert_eq.
Qed.

(** ** The branch of draws smaller than a pixel *)

Lemma Canvas_set_subpixel (c : Canvas) (x y r g b s : Q) :
  0 < s * _scale c -> s * _scale c < 1 ->
  0 <= x * _scale c -> x * _scale c < inject_Z (width (_display c)) ->
  0 <= y * _scale c -> y * _scale c < inject_Z (height (_display c)) ->
  Canvas_set x y r g b s c =
    blend (Py.int (x * _scale c)) (Py.int (y * _scale c)) ((s * _scale c) ^ 2)
          (clamp01 r) (clamp01 g) (clamp01 b) c.
Proof.
  intros Hs0 Hs1 Hx0 Hx1 Hy0 Hy1. unfold Canvas_set, bind, gets, id.
  assert (Qle_bool (s * _scale c) 0 = false) as -> by (apply Qle_bool_false; lra).
  assert (Qeq_bool (s * _scale c) 1 = false) as -> by (apply Qeq_bool_false; lra).
  cbn [andb].
  assert (Py.Qltb (s * _scale c) 1 = true) as -> by now apply Qltb_lt.
  assert (Qle_bool 0 (x * _scale c) = true) as -> by now apply Qle_bool_iff.
  assert (Py.Qltb (x * _scale c) (inject_Z (width (_display c))) = true) as ->
    by now apply Qltb_lt.
  assert (Qle_bool 0 (y * _scale c) = true) as -> by now apply Qle_bool_iff.
  assert (Py.Qltb (y * _scale c) (inject_Z (height (_display c))) = true) as ->
    by now apply Qltb_lt.
  reflexivity.
Qed.

Lemma composite_on_empty (f dr dg db : Q) (p : Pixel) :
  0 <= f <= 1 -> in_unit dr -> in_unit dg -> in_unit db ->
  pixel_inv p -> pf p == 0 ->
  pixel_eq (fst (composite f dr dg db p)) (mkPixel (f * dr) (f * dg) (f * db) f).
Proof.
  unfold in_unit. intros Hf Hr Hg Hb (Ir & Ig & Ib & If) H0.
  rewrite composite_additive by (left; assumption).
  assert (f * dr <= f) by (apply Qmul_le_self; lra).
  assert (f * dg <= f) by (apply Qmul_le_self; lra).
  assert (f * db <= f) by (apply Qmul_le_self; lra).
  unfold pixel_eq; cbn. rewrite !cap1_eq by lra. repeat split; lra.
Qed.

(** ** Copying an image, cell by cell *)

Lemma round_of_integer (x : Q) (z : Z) : x == inject_Z z -> Py.round x = z.
Proof.
  intros H. unfold Py.round.
  rewrite (Qfloor_comp x (inject_Z z) H), Qfloor_Z.
  assert (Py.Qltb (x - inject_Z z) (1 # 2) = true) as ->; [|reflexivity].
  apply Qltb_lt. lra.
Qed.

Lemma Qdiv_same (n : Z) : (0 < n)%Z -> inject_Z n / inject_Z n == 1.
Proof.
  intros Hn. unfold Qdiv. apply Qmult_inv_r.
  assert (0 < inject_Z n) by (change 0 with (inject_Z 0); now rewrite <- Zlt_Qlt).
  lra.
Qed.

(** A loop whose body returns and moves an invariant indexed by the
    values done so far. *)
Lemma for_accumulates (J : list Z -> Canvas -> Prop) (body : Z -> M unit)
    (l : list Z) :
  (forall pre i c, In i l -> J pre c ->
     fst (body i c) = inr tt /\ J (pre ++ [i]) (snd (body i c))) ->
  forall pre c, J pre c ->
    fst (for_ l body c) = inr tt /\ J (pre ++ l) (snd (for_ l body c)).
Proof.
  induction l as [|i l IH]; intros Hbody pre c Hc; cbn [for_].
  - rewrite app_nil_r. split; [reflexivity | exact Hc].
  - unfold bind.
    destruct (Hbody pre i c (or_introl eq_refl) Hc) as [Hr Hc1].
    destruct (body i c) as [[e|[]] c1]; cbn in Hr, Hc1; [discriminate|].
    replace (pre ++ i :: l) with ((pre ++ [i]) ++ l)
      by (rewrite <- app_assoc; reflexivity).
    apply IH; [|exact Hc1].
    intros pre' i' c' Hin. apply Hbody. now right.
Qed.

Lemma copying_weaken (image : Image) (W H : Z) (scale : Q)
    (S S' : Z -> Z -> Prop) (c : Canvas) :
  (forall x y, (0 <= x < W)%Z -> (0 <= y < H)%Z -> S' x y -> S x y) ->
  copying image W H scale S c -> copying image W H scale S' c.
Proof.
  intros HS (Hshape & HW & HH & Hsc & Hpix).
  split; [exact Hshape|]. split; [exact HW|]. split; [exact HH|].
  split; [exact Hsc|].
  intros x y Hx Hy HS'. apply Hpix; auto.
Qed.

(** One pixel of the image, drawn at its own coordinates with side 1. *)
Lemma copying_step (image : Image) (W H : Z) (scale : Q) (S : Z -> Z -> Prop)
    (c : Canvas) (x y sz : Q) (ix iy : Z) :
  copying image W H scale S c ->
  sz * scale == 1 -> x * scale == inject_Z ix -> y * scale == inject_Z iy ->
  (0 <= ix < W)%Z -> (0 <= iy < H)%Z ->
  let rgb := getpixel image (ix, iy) in
  let run := Canvas_set x y (inject_Z (fst (fst rgb)) / 255)
                        (inject_Z (snd (fst rgb)) / 255)
                        (inject_Z (snd rgb) / 255) sz c in
  fst run = inr tt /\
  copying image W H scale (fun x' y' => S x' y' \/ (x' = ix /\ y' = iy)) (snd run).
Proof.
  intros (Hshape & HW & HH & Hsc & Hpix) Hs Hx Hy Hix Hiy rgb run.
  subst W H scale. unfold run.
  rewrite (Canvas_set_exact c x y _ _ _ sz ix iy) by assumption.
  cbn [fst snd]. split; [reflexivity|].
  split; [now apply drawn_shape_inv|].
  split; [reflexivity|]. split; [reflexivity|]. split; [reflexivity|].
  intros x' y' Hx' Hy' HS.
  destruct (Z.eq_dec x' ix) as [->|Nx]; [destruct (Z.eq_dec y' iy) as [->|Ny]|].
  - rewrite (pixel_at_drawn c ix iy (Z.to_nat ix, Z.to_nat iy))
      by now apply locate_in_range.
    reflexivity.
  - rewrite frame_of_drawn by (try assumption; try lia; congruence).
    apply Hpix; try assumption. destruct HS as [HS|[_ E]]; [exact HS|congruence].
  - rewrite frame_of_drawn by (try assumption; try lia; congruence).
    apply Hpix; try assumption. destruct HS as [HS|[E _]]; [exact HS|congruence].
Qed.

(** ** The displays *)

Lemma clamped_cases (r : Q) :
  (r <= 0 /\ Py.min (Py.max r 0) 1 == 0) \/
  (0 <= r <= 1 /\ Py.min (Py.max r 0) 1 == r) \/
  (1 <= r /\ Py.min (Py.max r 0) 1 == 1).
Proof.
  destruct (max_spec r 0) as [[? E]|[? E]]; rewrite E.
  - destruct (min_spec 0 1) as [[? E']|[? E']]; rewrite E'; [lra|].
    left. split; lra.
  - destruct (min_spec r 1) as [[? E']|[? E']]; rewrite E'.
    + right. right. split; lra.
    + right. left. split; lra.
Qed.

Lemma clamped_unit (r : Q) : 0 <= Py.min (Py.max r 0) 1 <= 1.
Proof. destruct (clamped_cases r) as [[? ->]|[[? ->]|[? ->]]]; lra. Qed.

Lemma clamped_monotone (r r' : Q) :
  r <= r' -> Py.min (Py.max r 0) 1 <= Py.min (Py.max r' 0) 1.
Proof.
  intros H.
  destruct (clamped_cases r) as [[? ->]|[[? ->]|[? ->]]];
    destruct (clamped_cases r') as [[? ->]|[[? ->]|[? ->]]]; lra.
Qed.

(** X16.  The byte a display makes of a channel is between 0 and 255, is
    0 for a channel at or below 0 and 255 for a channel at or above 1, and
    grows with the channel. *)
Theorem channel_byte_range (r r' : Q) :
  (0 <= channel_byte r <= 255)%Z /\
  (r <= 0 -> channel_byte r = 0%Z) /\
  (1 <= r -> channel_byte r = 255%Z) /\
  (r <= r' -> (channel_byte r <= channel_byte r')%Z).
Proof.
  unfold channel_byte.
  pose proof (clamped_unit r) as Hr. pose proof (clamped_unit r') as Hr'.
  rewrite !int_nonneg by lra.
  set (v := Py.min (Py.max r 0) 1) in *.
  set (v' := Py.min (Py.max r' 0) 1) in *.
  split; [|split; [|split]].
  - pose proof (Qfloor_resp_le 0 (255 * v) ltac:(lra)) as H0.
    pose proof (Qfloor_resp_le (255 * v) 255 ltac:(lra)) as H1.
    change (Qfloor 0) with 0%Z in H0. change (Qfloor 255) with 255%Z in H1.
    lia.
  - intros H. rewrite (Qfloor_comp (255 * v) 0); [reflexivity|].
    unfold v. destruct (clamped_cases r) as [[? ->]|[[? ->]|[? ->]]]; lra.
  - intros H. rewrite (Qfloor_comp (255 * v) 255); [reflexivity|].
    unfold v. destruct (clamped_cases r) as [[? ->]|[[? ->]|[? ->]]]; lra.
  - intros H. apply Qfloor_resp_le.
    pose proof (clamped_monotone r r' H). fold v v' in H0. lra.
Qed.

Lemma channel_byte_range_witness :
  (0 <= channel_byte (-1 # 3) <= 255)%Z /\
  channel_byte (-1 # 3) = 0%Z /\
  channel_byte 2 = 255%Z /\
  (channel_byte (1 # 3) <= channel_byte (1 # 2))%Z.
Proof.
  split; [apply (channel_byte_range (-1 # 3) 0)|].
  split; [apply (channel_byte_range (-1 # 3) 0); vm_compute; discriminate|].
  split; [apply (channel_byte_range 2 0); vm_compute; discriminate|].
  apply (channel_byte_range (1 # 3) (1 # 2)). vm_compute; discriminate.
Defined.









Lemma valid_orientation_cases (o : Z) :
  In o valid_orientations -> (o = 0 \/ o = 90 \/ o = 180 \/ o = 270)%Z.
Proof. cbn. intuition. Qed.

Lemma PIL_set_returns (d : PIL) (x y : Z) (r g b : Q) :
  In (PIL_orientation d) valid_orientations ->
  fst (PIL_set d x y r g b) = inr tt /\
  PIL_orientation (snd (PIL_set d x y r g b)) = PIL_orientation d /\
  PIL_get_shape (snd (PIL_set d x y r g b)) = PIL_get_shape d.
Proof.
  intros Ho. apply valid_orientation_cases in Ho.
  unfold PIL_set, Display__orient, PIL_get_shape.
  destruct (size (_image d)) as [w h] eqn:Esize.
  destruct Ho as [E | [E | [E | E]]]; rewrite E; cbn [Z.eqb Pos.eqb];
    match goal with |- context [if ?t then _ else _] => destruct t end;
    cbn; rewrite ?Esize, ?E; repeat split; reflexivity.
Qed.

Lemma PIL_set_orientation_valid (d : PIL) (o : Z) :
  In (PIL_orientation d) valid_orientations ->
  In (PIL_orientation (snd (PIL_set_orientation d o))) valid_orientations /\
  PIL_get_shape (snd (PIL_set_orientation d o)) = PIL_get_shape d.
Proof.
  intros Hd. unfold PIL_set_orientation.
  destruct (bad_orientation o) eqn:Eo; cbn; [now split|].
  split; [|reflexivity].
  destruct (In_dec Z.eq_dec o valid_orientations) as [Hin|Hout];
    [exact Hin | apply bad_orientation_spec in Hout; congruence].
Qed.

Lemma PIL_set_float_numbers (d : PIL) (x y : Z) (r g b : Q) :
  snd (PIL_set_float d x y (Num r) (Num g) (Num b)) = snd (PIL_set d x y r g b) /\
  (fst (PIL_set_float d x y (Num r) (Num g) (Num b)) = inr tt <->
   fst (PIL_set d x y r g b) = inr tt).
Proof.
  unfold PIL_set_float, PIL_set.
  destruct (Display__orient _ _ x y) as [e|[dx dy]]; cbn.
  - split; [reflexivity|]. split; discriminate.
  - destruct (_ && _); cbn; split; try reflexivity; tauto.
Qed.

Lemma PIL_set_float_returns (d : PIL) (x y : Z) (r g b : Channel) :
  In (PIL_orientation d) valid_orientations ->
  r <> NaN -> g <> NaN -> b <> NaN ->
  fst (PIL_set_float d x y r g b) = inr tt /\
  PIL_orientation (snd (PIL_set_float d x y r g b)) = PIL_orientation d /\
  PIL_get_shape (snd (PIL_set_float d x y r g b)) = PIL_get_shape d.
Proof.
  intros Ho Hr Hg Hb. apply valid_orientation_cases in Ho.
  assert (exists r8, channel_byte_of r = Some r8) as [r8 Er]
    by (destruct r; cbn; eauto; congruence).
  assert (exists g8, channel_byte_of g = Some g8) as [g8 Eg]
    by (destruct g; cbn; eauto; congruence).
  assert (exists b8, channel_byte_of b = Some b8) as [b8 Eb]
    by (destruct b; cbn; eauto; congruence).
  unfold PIL_set_float, Display__orient, PIL_get_shape.
  rewrite Er, Eg, Eb.
  destruct (size (_image d)) as [w h] eqn:Esize.
  destruct Ho as [E | [E | [E | E]]]; rewrite E; cbn [Z.eqb Pos.eqb];
    match goal with |- context [if ?t then _ else _] => destruct t end;
    cbn; rewrite ?Esize, ?E; repeat split; reflexivity.
Qed.

Lemma PIL_orientations_valid (w h : Z) (d : PIL) (os : list Z) :
  PIL___init__ w h = inr d ->
  In (PIL_orientation (PIL_set_orientations os d)) valid_orientations /\
  PIL_get_shape (PIL_set_orientations os d) = (w, h).
Proof.
  intros Hinit.
  assert (In (PIL_orientation d) valid_orientations /\ PIL_get_shape d = (w, h))
    as Hd.
  { unfold PIL___init__ in Hinit.
    destruct ((w <? 0)%Z || (h <? 0)%Z); [discriminate|].
    injection Hinit as <-. cbn. tauto. }
  clear Hinit. revert d Hd. unfold PIL_set_orientations.
  induction os as [|o os IH]; intros d Hd; cbn; [exact Hd|].
  apply IH. destruct Hd as [Ho Hs].
  destruct (PIL_set_orientation_valid d o Ho) as [Ho' Hs'].
  split; [exact Ho' | congruence].
Qed.

(** X20.  A [_PIL] display, from its construction on and through any
    sequence of [set_orientation] calls, accepted or refused, never raises
    on [set], whatever the coordinates and for every colour none of whose
    channels is a NaN, infinite channels included, and keeps the shape it
    was constructed with. *)
Theorem pil_set_never_raises (w h : Z) (d : PIL) (os : list Z)
    (x y : Z) (r g b : Channel) :
  PIL___init__ w h = inr d ->
  r <> NaN -> g <> NaN -> b <> NaN ->
  fst (PIL_set_float (PIL_set_orientations os d) x y r g b) = inr tt /\
  PIL_get_shape (snd (PIL_set_float (PIL_set_orientations os d) x y r g b))
    = (w, h).
Proof.
  intros Hinit Hr Hg Hb.
  destruct (PIL_orientations_valid w h d os Hinit) as [Ho Hs].
  destruct (PIL_set_float_returns (PIL_set_orientations os d) x y r g b Ho Hr Hg Hb)
    as (Hret & _ & Hshape).
  split; [exact Hret | congruence].
Qed.

Lemma pil_set_never_raises_witness :
  fst (PIL_set_float (PIL_set_orientations [180; 45; 270]%Z pil_6x4) (-3) 9
                     (Num 1) PosInf (Num (-2))) = inr tt /\
  PIL_get_shape (snd (PIL_set_float (PIL_set_orientations [180; 45; 270]%Z pil_6x4)
                                    (-3) 9 (Num 1) PosInf (Num (-2)))) = (6, 4)%Z.
Proof.
  apply (pil_set_never_raises 6 4 pil_6x4); [reflexivity | discriminate..].
Defined.

(** X25.  On such a display, a [set] call with a NaN channel raises the
    ValueError of [int] when the position [_orient] gives is on the image,
    and returns when it is not; either way the image is left as it was. *)
Theorem pil_set_nan_channel (w h : Z) (d : PIL) (os : list Z)
    (x y : Z) (r g b : Channel) :
  PIL___init__ w h = inr d ->
  r = NaN \/ g = NaN \/ b = NaN ->
  let d' := PIL_set_orientations os d in
  PIL_set_float d' x y r g b
    = (if on_image d' x y then inl IntValueError_NaN else inr tt, d').
Proof.
  intros Hinit Hnan d'.
  destruct (PIL_orientations_valid w h d os Hinit) as [Ho _]. fold d' in Ho.
  assert (match channel_byte_of r, channel_byte_of g, channel_byte_of b with
          | Some _, Some _, Some _ => False
          | _, _, _ => True
          end) as Hbytes.
  { destruct Hnan as [-> | [-> | ->]]; cbn;
      repeat match goal with |- context [channel_byte_of ?c] =>
               destruct (channel_byte_of c) end; exact I. }
  unfold PIL_set_float, on_image.
  destruct (Display__orient _ _ x y) as [e|[dx dy]] eqn:Eor.
  - exfalso. apply valid_orientation_cases in Ho.
    unfold Display__orient in Eor.
    destruct (size (_image d')) as [iw ih].
    destruct Ho as [E | [E | [E | E]]]; rewrite E in Eor; discriminate.
  - destruct (_ && _); [|reflexivity].
    destruct (channel_byte_of r), (channel_byte_of g), (channel_byte_of b);
      first [reflexivity | contradiction].
Qed.

Lemma pil_set_nan_channel_witness :
  let d' := PIL_set_orientations [180; 45]%Z pil_6x4 in
  PIL_set_float d' 2 1 (Num 1) NaN (Num 0) = (inl IntValueError_NaN, d').
Proof.
  apply (pil_set_nan_channel 6 4 pil_6x4 [180; 45]%Z); [reflexivity|].
  right. left. reflexivity.
Defined.

(** X21.  With an image of width [w] and height [h], [_orient] under a
    valid orientation returns; applied to its own result it gives back
    the coordinates under 0, 90 and 180 degrees, and under 270 degrees
    the coordinates shifted by [w - h] and [h - w], which are the same
    only on a square image. *)
Theorem orient_twice (o w h x y : Z) :
  In o valid_orientations ->
  exists p,
    Display__orient o (Some (w, h)) x y = inr p /\
    Display__orient o (Some (w, h)) (fst p) (snd p)
      = inr (if (o =? 270)%Z then (x + (w - h), y + (h - w))%Z else (x, y)).
Proof.
  intros Ho. apply valid_orientation_cases in Ho.
  destruct Ho as [-> | [-> | [-> | ->]]]; unfold Display__orient;
    cbn [Z.eqb Pos.eqb]; eexists; (split; [reflexivity|]);
    cbn [fst snd]; do 2 f_equal; lia.
Qed.

Lemma orient_twice_witness :
  exists p,
    Display__orient 270 (Some (6, 4)%Z) 1 2 = inr p /\
    Display__orient 270 (Some (6, 4)%Z) (fst p) (snd p)
      = inr (if (270 =? 270)%Z then (1 + (6 - 4), 2 + (4 - 6))%Z else (1, 2)%Z).
Proof.
  apply (orient_twice 270 6 4 1 2). cbn. tauto.
Defined.

(** X22.  A display of a class that inherits [set_orientation] and sets no
    [_image] ([MAX7219], [RGBLEDMatrix], [SDL]) accepts the orientations
    180 and 270, after which [_orient], the first step of its [set],
    raises [AttributeError] at every coordinate; under 0 and 90 it
    returns. *)
Theorem orient_without_image (d : Display) (o x y : Z) :
  class_ d = Inheriting ->
  ((o = 180 \/ o = 270)%Z ->
   fst (set_orientation d o) = inr tt /\
   Display__orient (orientation (snd (set_orientation d o))) None x y
     = inl AttributeError__image) /\
  ((o = 0 \/ o = 90)%Z ->
   fst (set_orientation d o) = inr tt /\
   exists p, Display__orient (orientation (snd (set_orientation d o))) None x y
             = inr p).
Proof.
  intros Hclass. unfold set_orientation. rewrite Hclass.
  split; intros [Ho|Ho]; subst o; cbn; (split; [reflexivity|]);
    first [reflexivity | eexists; reflexivity].
Qed.

Lemma orient_without_image_witness :
  (fst (set_orientation sdl_800x600 180) = inr tt /\
   Display__orient (orientation (snd (set_orientation sdl_800x600 180))) None 10 20
     = inl AttributeError__image) /\
  (fst (set_orientation sdl_800x600 90) = inr tt /\
   exists p, Display__orient (orientation (snd (set_orientation sdl_800x600 90)))
                             None 10 20 = inr p).
Proof.
  split.
  - apply (proj1 (orient_without_image sdl_800x600 180 10 20 eq_refl)). now left.
  - apply (proj2 (orient_without_image sdl_800x600 90 10 20 eq_refl)). now right.
Defined.

(** ** Squares of integer side at integer coordinates *)





(** ** The factors of a draw add up to its area *)

Lemma Qsum_cons (q : Q) (l : list Q) : Qsum (q :: l) = q + Qsum l.
Proof. reflexivity. Qed.

Lemma Qsum_app (l k : list Q) : Qsum (l ++ k) == Qsum l + Qsum k.
Proof.
  induction l as [|q l IH].
  - change (Qsum ([] ++ k)) with (Qsum k). change (Qsum []) with 0. lra.
  - change (Qsum ((q :: l) ++ k)) with (q + Qsum (l ++ k)).
    rewrite Qsum_cons, IH. lra.
Qed.

Lemma Qsum_scaled (c : Q) (f : Z -> Q) (l : list Z) :
  Qsum (List.map (fun p => c * f p) l) == c * Qsum (List.map f l).
Proof.
  induction l as [|p l IH].
  - change (0 == c * 0). ring.
  - cbn [List.map]. rewrite !Qsum_cons, IH. ring.
Qed.

Lemma Qsum_products (f g : Z -> Q) (xs ys : list Z) :
  Qsum (List.map (fun px => Qsum (List.map (fun py => f px * g py) ys)) xs)
    == Qsum (List.map f xs) * Qsum (List.map g ys).
Proof.
  induction xs as [|px xs IH].
  - change (0 == 0 * Qsum (List.map g ys)). ring.
  - cbn [List.map]. rewrite !Qsum_cons, IH, Qsum_scaled. ring.
Qed.

Lemma range_snoc (a c : Z) :
  (a <= c)%Z -> Py.range a (c + 1) = Py.range a c ++ [c].
Proof.
  intros H. unfold Py.range.
  replace (Z.to_nat (c + 1 - a)) with (S (Z.to_nat (c - a))) by lia.
  rewrite seq_S, List.map_app. cbn. do 2 f_equal. lia.
Qed.

(** The overlaps of the cells visited on one axis, up to the cell [c]. *)
Lemma overlap_partial_sum (l r : Q) (n : nat) :
  0 <= l -> l <= r ->
  (Qfloor l + Z.of_nat n <= Qfloor r)%Z ->
  Qsum (List.map (overlap l r)
                 (Py.range (Qfloor l) (Qfloor l + Z.of_nat n + 1)))
    == Py.min r (inject_Z (Qfloor l + Z.of_nat n + 1)) - l.
Proof.
  intros Hl Hlr.
  pose proof (Qfloor_le l) as Hfl. pose proof (Qlt_floor l) as Hlt.
  pose proof (Qfloor_le r) as Hfr.
  rewrite inject_Z_plus in Hlt. change (inject_Z 1) with 1 in Hlt.
  set (a := Qfloor l) in *.
  induction n as [|n IH]; intros Hn.
  - rewrite Z.add_0_r. unfold Py.range.
    replace (Z.to_nat (a + 1 - a)) with 1%nat by lia.
    cbn [seq List.map]. rewrite Qsum_cons. change (Qsum []) with 0.
    change (Z.of_nat 0) with 0%Z. rewrite Z.add_0_r. unfold overlap.
    rewrite !inject_Z_plus. change (inject_Z 1) with 1. change (inject_Z 0) with 0.
    assert (0 <= Py.min r (inject_Z a + 1) - Py.max l (inject_Z a + 0)) as Hpos
      by (destruct (min_spec r (inject_Z a + 1)) as [[? ->]|[? ->]];
          destruct (max_spec l (inject_Z a + 0)) as [[? ->]|[? ->]]; lra).
    rewrite Qabs_pos by exact Hpos.
    destruct (max_spec l (inject_Z a + 0)) as [[? ->]|[? ->]]; lra.
  - replace (a + Z.of_nat (S n) + 1)%Z with ((a + Z.of_nat n + 1) + 1)%Z by lia.
    rewrite range_snoc by lia.
    rewrite List.map_app, Qsum_app, IH by lia.
    cbn [List.map]. rewrite Qsum_cons. change (Qsum []) with 0.
    set (c := (a + Z.of_nat n + 1)%Z) in *.
    assert (inject_Z a + 1 <= inject_Z c).
    { change 1 with (inject_Z 1). rewrite <- inject_Z_plus, <- Zle_Qle. lia. }
    assert (inject_Z c <= inject_Z (Qfloor r)) by (rewrite <- Zle_Qle; lia).
    unfold overlap.
    rewrite !inject_Z_plus. change (inject_Z 1) with 1. change (inject_Z 0) with 0.
    assert (0 <= Py.min r (inject_Z c + 1) - Py.max l (inject_Z c + 0)) as Hpos
      by (destruct (min_spec r (inject_Z c + 1)) as [[? ->]|[? ->]];
          destruct (max_spec l (inject_Z c + 0)) as [[? ->]|[? ->]]; lra).
    rewrite Qabs_pos by exact Hpos.
    destruct (min_spec r (inject_Z c)) as [[? ->]|[? ->]];
      destruct (max_spec l (inject_Z c + 0)) as [[? ->]|[? ->]]; lra.
Qed.

Lemma overlap_sum (l r : Q) :
  0 <= l -> l <= r ->
  Qsum (List.map (overlap l r) (Py.range (Py.int l) (Py.int r + 1))) == r - l.
Proof.
  intros Hl Hlr. rewrite !int_nonneg by lra.
  pose proof (Qfloor_resp_le l r Hlr) as Hfloor.
  pose proof (overlap_partial_sum l r (Z.to_nat (Qfloor r - Qfloor l)) Hl Hlr
                ltac:(lia)) as H.
  replace (Qfloor l + Z.of_nat (Z.to_nat (Qfloor r - Qfloor l)))%Z
    with (Qfloor r) in H by lia.
  rewrite H.
  pose proof (Qlt_floor r).
  destruct (min_spec r (inject_Z (Qfloor r + 1))) as [[? ->]|[? ->]]; lra.
Qed.

Lemma overlap_le_1 (l r : Q) (p : Z) :
  0 <= l -> l <= r -> In p (Py.range (Py.int l) (Py.int r + 1)) ->
  0 <= overlap l r p <= 1.
Proof.
  intros Hl Hlr Hin.
  rewrite (overlap_is_intersection l r p Hl Hlr Hin).
  unfold intersection_length.
  set (q := inject_Z p).
  destruct (min_spec r (q + 1)) as [[? Em]|[? Em]]; rewrite Em;
    destruct (max_spec l q) as [[? Ea]|[? Ea]]; rewrite Ea;
    match goal with |- _ <= Py.max 0 ?v <= _ =>
      destruct (max_spec 0 v) as [[? ->]|[? ->]] end; lra.
Qed.

Lemma offsets_sum (scale : Q) :
  fst (offsets scale) + snd (offsets scale) == scale.
Proof.
  unfold offsets. destruct (negb _); cbn [fst snd]; ring.
Qed.

(** X24.  For a square of side [scale > 0] whose top-left corner is at
    non-negative coordinates, the factors [set] computes for the cells it
    visits are each between 0 and 1, so that the cut at 1 changes none,
    and add up to [scale * scale], the area of the square. *)
Theorem factors_add_up_to_the_area (dx dy scale : Q) :
  0 < scale ->
  0 <= dx - fst (offsets scale) -> 0 <= dy - fst (offsets scale) ->
  Forall (Forall (fun f => 0 <= f <= 1)) (visited_factors dx dy scale) /\
  Qsum (List.map Qsum (visited_factors dx dy scale)) == scale * scale.
Proof.
  intros Hs Hx Hy. pose proof (offsets_sum scale) as Hsum.
  unfold visited_factors.
  destruct (offsets scale) as [l_off r_off]; cbn [fst snd] in *.
  set (dxl := dx - l_off) in *. set (dxr := dx + r_off).
  set (dyt := dy - l_off) in *. set (dyb := dy + r_off).
  assert (dxl <= dxr) by (unfold dxl, dxr; lra).
  assert (dyt <= dyb) by (unfold dyt, dyb; lra).
  split.
  - apply Forall_forall. intros fs Hfs.
    apply list_elem_of_In, in_map_iff in Hfs as (px & <- & Hpx).
    apply Forall_forall. intros f Hf.
    apply list_elem_of_In, in_map_iff in Hf as (py & <- & Hpy).
    rewrite cell_area_overlap.
    pose proof (overlap_le_1 dxl dxr px Hx ltac:(assumption) Hpx).
    pose proof (overlap_le_1 dyt dyb py Hy ltac:(assumption) Hpy).
    split; [apply Qmult_le_0_compat; lra|].
    assert (overlap dxl dxr px * overlap dyt dyb py <= overlap dxl dxr px)
      by (apply Qmul_le_self; lra).
    lra.
  - rewrite List.map_map.
    assert (Qsum (List.map (fun px => Qsum (List.map
                   (fun py => cell_area dxl dxr dyt dyb px py)
                   (Py.range (Py.int dyt) (Py.int dyb + 1))))
                 (Py.range (Py.int dxl) (Py.int dxr + 1)))
            == Qsum (List.map (overlap dxl dxr) (Py.range (Py.int dxl) (Py.int dxr + 1)))
               * Qsum (List.map (overlap dyt dyb) (Py.range (Py.int dyt) (Py.int dyb + 1))))
      as -> by apply Qsum_products.
    rewrite !overlap_sum by assumption.
    assert (dxr - dxl == scale) as Ex by (unfold dxl, dxr; lra).
    assert (dyb - dyt == scale) as Ey by (unfold dyt, dyb; lra).
    rewrite Ex, Ey. reflexivity.
Qed.

Lemma factors_add_up_to_the_area_witness :
  Forall (Forall (fun f => 0 <= f <= 1))
         (visited_factors (7 # 2) (11 # 4) (5 # 2)) /\
  Qsum (List.map Qsum (visited_factors (7 # 2) (11 # 4) (5 # 2)))
    == (5 # 2) * (5 # 2).
Proof.
  apply (factors_add_up_to_the_area (7 # 2) (11 # 4) (5 # 2));
    vm_compute; first [reflexivity | discriminate].
Defined.

(** * Single draws over a [NullDisplay]

    The outcome of one draw, stated on canvases over a [NullDisplay],
    whose [set] returns.  Where a statement says which cell a draw
    reaches, the canvas is of scale 1, and integer coordinates are below
    [2 ^ 52]: the arguments, their products with the scale, the bounds of
    the square and the areas are then numbers that [float64] holds
    exactly, and the source decides every test as the embedding does.
    That a clipped draw returns is stated at any scale, for finite
    arguments of bounded size: rounding moves a draw between branches,
    none of which raises. *)

Ltac closed_bounds :=
  vm_compute; repeat split; first [reflexivity | discriminate].

Lemma at_scale_1 (c : Canvas) (q : Q) : _scale c == 1 -> q * _scale c == q.
Proof. intros H. rewrite H. ring. Qed.

Lemma drawn_overwritten (c : Canvas) (col row call_x : Z) (q : Pixel)
    (k : SinkCall) (dr dg db : Q) :
  shape_inv c ->
  (0 <= col < width (_display c))%Z -> (0 <= row < height (_display c))%Z ->
  pixel_eq q (mkPixel dr dg db 1) -> call_eq k (CallSet call_x row dr dg db) ->
  pixel_overwritten c (drawn c (Z.to_nat col, Z.to_nat row) q k)
                    col row dr dg db call_x.
Proof.
  intros Hshape Hcol Hrow Hq Hk. split; [|split].
  - exists q. split; [|exact Hq].
    apply pixel_at_drawn. now apply locate_in_range.
  - intros x y Hx Hy Hne. apply frame_of_drawn; try assumption; lia.
  - cbn. apply Forall2_app.
    + apply Forall2_refl_on, call_eq_refl.
    + constructor; [exact Hk | constructor].
Qed.

(** A draw of side 1 at integer coordinates whose column [a] is off the
    grid, with [xwrap]: the column is moved by one width, and the entry
    the buffer holds at the moved index, [canvas[t][j]], is overwritten. *)
Lemma unit_draw_wrapped_effect (c : Canvas) (r g b : Q) (a j t : Z) :
  reachable c -> _scale c == 1 -> _xwrap c = true ->
  (0 <= j < height (_display c))%Z ->
  (a < 0 \/ width (_display c) <= a)%Z ->
  (0 <= t < width (_display c))%Z ->
  locate (_canvas c)
         (if (a <? 0)%Z then a + width (_display c) else a - width (_display c)) j
    = Some (Z.to_nat t, Z.to_nat j) ->
  let moved :=
    (if (a <? 0)%Z then a + width (_display c) else a - width (_display c))%Z in
  let run := Canvas_set (inject_Z a) (inject_Z j) r g b 1 c in
  fst run = inr tt /\
  pixel_overwritten c (snd run) t j (clamp01 r) (clamp01 g) (clamp01 b) moved /\
  canvas_eq (snd run)
            (drawn c (Z.to_nat t, Z.to_nat j)
                   (mkPixel (clamp01 r) (clamp01 g) (clamp01 b) 1)
                   (CallSet moved j (clamp01 r) (clamp01 g) (clamp01 b))).
Proof.
  intros Hreach Hscale Hwrap Hj Ha Ht Hloc moved run.
  destruct (reachable_inv c Hreach) as [old (Hbuf & Hshape & _)].
  destruct (unit_draw_wrapped c (inject_Z a) (inject_Z j) r g b 1 a j Hwrap Hj)
    as (f & Hf & E); try (now apply at_scale_1); [exact Ha|].
  subst run. rewrite E. fold moved in Hloc |- *.
  rewrite (blend_run c _ _ _ _ _ _ _ Hloc). cbn [fst snd].
  destruct (composite_overwrites f (clamp01 r) (clamp01 g) (clamp01 b)
              (read (_canvas c) (Z.to_nat t, Z.to_nat j)) Hf)
    as [Hq Hk]; try apply clamp01_range; [now apply read_inv|].
  assert (call_eq (call_set moved j
                     (snd (composite f (clamp01 r) (clamp01 g) (clamp01 b)
                             (read (_canvas c) (Z.to_nat t, Z.to_nat j)))))
                  (CallSet moved j (clamp01 r) (clamp01 g) (clamp01 b))) as Hcall.
  { unfold call_set. cbn. split; [reflexivity|]. split; [reflexivity|]. exact Hk. }
  split; [reflexivity|]. split.
  - now apply drawn_overwritten.
  - now apply drawn_eq.
Qed.

(** ** The column left of the grid *)



(** ** Clipped draws return *)

(** X7.  On a reachable canvas over a [NullDisplay] whose two wrap flags
    are off, [set] returns for all finite coordinates, colours and sizes
    whose position and side on the grid are at most [2 ^ 52] in
    magnitude: what falls outside the grid is clipped, never an error. *)
Theorem set_never_raises_without_wrap (c : Canvas) (x y r g b s : Q) :
  reachable c -> class_ (_display c) = NullDisplay ->
  _xwrap c = false -> _ywrap c = false ->
  Qabs (x * _scale c) <= inject_Z (2 ^ 52) ->
  Qabs (y * _scale c) <= inject_Z (2 ^ 52) ->
  Qabs (s * _scale c) <= inject_Z (2 ^ 52) ->
  fst (Canvas_set x y r g b s c) = inr tt.
Proof.
  intros Hreach _ Hx Hy _ _ _.
  apply (Canvas_set_returns (width (_display c)) (height (_display c))).
  now apply reachable_clipping.
Qed.

Lemma set_never_raises_without_wrap_witness :
  fst (Canvas_set 9 (-7 # 2) 1 1 1 5 (canvas_4x4 false false)) = inr tt.
Proof.
  apply (set_never_raises_without_wrap (canvas_4x4 false false));
    try closed_bounds.
  apply (reachable_init null_4x4 None None false false). reflexivity.
Defined.

Lemma image_of_bytes (iw ih : Z) : rgb_bytes (image_of iw ih).
Proof.
  intros [x y]. cbn.
  pose proof (Z.mod_pos_bound (x * 40) 256). pose proof (Z.mod_pos_bound (y * 40) 256).
  lia.
Qed.

(** X8.  On a reachable canvas over a [NullDisplay] whose two wrap flags
    are off, [set_image] returns for every RGB image of positive width
    and height, the sizes of the grid and of the image being below
    [2 ^ 52]. *)
Theorem set_image_never_raises_without_wrap (c : Canvas) (image : Image) :
  reachable c -> class_ (_display c) = NullDisplay ->
  _xwrap c = false -> _ywrap c = false ->
  rgb_bytes image ->
  (0 < fst (size image) < 2 ^ 52)%Z -> (0 < snd (size image) < 2 ^ 52)%Z ->
  (width (_display c) < 2 ^ 52)%Z -> (height (_display c) < 2 ^ 52)%Z ->
  fst (Canvas_set_image image c) = inr tt.
Proof.
  intros Hreach _ Hx Hy _ Hiw Hih _ _.
  pose proof (reachable_clipping c Hreach Hx Hy) as Hc.
  unfold Canvas_set_image, bind, gets, id.
  destruct (get_shape (_display c)) as [dw dh].
  destruct (size image) as [iw ih]; cbn [fst snd] in *.
  assert ((iw <=? 0)%Z || (ih <=? 0)%Z = false) as ->.
  { apply orb_false_iff. split; apply Z.leb_gt; lia. }
  refine (proj1 (returns_for _ _ _ _ c Hc)).
  intros ix. apply returns_for. intros iy.
  destruct (getpixel image (ix, iy)) as [[rgb0 rgb1] rgb2].
  apply Canvas_set_returns.
Qed.

Lemma set_image_never_raises_without_wrap_witness :
  fst (Canvas_set_image (image_of 3 7) (canvas_4x4 false false)) = inr tt.
Proof.
  apply (set_image_never_raises_without_wrap (canvas_4x4 false false)
           (image_of 3 7)); try closed_bounds.
  - apply (reachable_init null_4x4 None None false false). reflexivity.
  - apply image_of_bytes.
Defined.

(** ** Columns off the grid, with [xwrap] *)

(** X9.  On a reachable canvas over a [NullDisplay], of scale 1 and with
    [xwrap], [set(a, j, r, g, b, 1)] at a row [j] of the grid and an
    integer column [a] one width or less off the grid, on either side,
    returns, leaves [canvas[a mod W][j]] with the clamped colour and
    coverage 1, leaves every other entry as it was, and makes one call on
    the display, its [set] at [(a mod W, j)]; the canvas it leaves is the
    one [set(a mod W, j, r, g, b, 1)] leaves. *)
Theorem wrap_x_within_one_period (c : Canvas) (r g b : Q) (a j : Z) :
  reachable c ->
  class_ (_display c) = NullDisplay -> _scale c == 1 -> _xwrap c = true ->
  (0 < width (_display c))%Z -> (0 <= j < height (_display c))%Z ->
  (Z.abs a < 2 ^ 52)%Z -> (j < 2 ^ 52)%Z ->
  (- width (_display c) <= a < 0 \/
   width (_display c) <= a < 2 * width (_display c))%Z ->
  let t := (a mod width (_display c))%Z in
  let run := Canvas_set (inject_Z a) (inject_Z j) r g b 1 c in
  let direct := Canvas_set (inject_Z t) (inject_Z j) r g b 1 c in
  fst run = inr tt /\ fst direct = inr tt /\
  pixel_overwritten c (snd run) t j (clamp01 r) (clamp01 g) (clamp01 b) t /\
  canvas_eq (snd run) (snd direct).
Proof.
  intros Hreach _ Hscale Hwrap HW Hj _ _ Ha t run direct.
  destruct (reachable_inv c Hreach) as [old (_ & Hshape & _)].
  pose proof (wrapped_once a (width (_display c)) HW Ha) as Ht.
  assert (0 <= t < width (_display c))%Z as Hin
    by (subst t; now apply Z.mod_pos_bound).
  destruct (unit_draw_wrapped_effect c r g b a j t Hreach Hscale Hwrap Hj)
    as (Hret & Hpix & Heq); [lia | exact Hin | |].
  { rewrite Ht. now apply locate_in_range. }
  rewrite Ht in Hpix, Heq. fold t in Hpix, Heq.
  subst direct.
  rewrite (Canvas_set_exact c (inject_Z t) (inject_Z j) r g b 1 t j);
    try (now apply at_scale_1); try assumption.
  cbn [fst snd]. split; [exact Hret|]. split; [reflexivity|].
  split; [exact Hpix | exact Heq].
Qed.

Lemma wrap_x_within_one_period_witness :
  let c := painted_4x4 in
  let t := (6 mod width (_display c))%Z in
  let run := Canvas_set (inject_Z 6) (inject_Z 1) 1 (1 # 2) 0 1 c in
  let direct := Canvas_set (inject_Z t) (inject_Z 1) 1 (1 # 2) 0 1 c in
  fst run = inr tt /\ fst direct = inr tt /\
  pixel_overwritten c (snd run) t 1 (clamp01 1) (clamp01 (1 # 2)) (clamp01 0) t /\
  canvas_eq (snd run) (snd direct).
Proof.
  refine (wrap_x_within_one_period painted_4x4 1 (1 # 2) 0 6 1 _ _ _ _ _ _ _ _ _);
    try closed_bounds.
  - apply reachable_run_ops.
    apply (reachable_init null_4x4 None None true false). reflexivity.
  - right. closed_bounds.
Defined.

(** X10.  On a reachable canvas over a [NullDisplay], of scale 1 and with
    [xwrap], [set(a, j, r, g, b, 1)] at a row [j] of the grid and an
    integer column [a], below [2 ^ 52] in magnitude, more than two widths
    to the left of the grid or at least one width to its right raises
    IndexError, and leaves the buffer and the display as they were. *)
Theorem wrap_x_beyond_two_periods (c : Canvas) (r g b : Q) (a j : Z) :
  reachable c ->
  class_ (_display c) = NullDisplay -> _scale c == 1 -> _xwrap c = true ->
  (0 < width (_display c))%Z -> (0 <= j < height (_display c))%Z ->
  (Z.abs a < 2 ^ 52)%Z -> (j < 2 ^ 52)%Z ->
  (a < - (2 * width (_display c)) \/ 2 * width (_display c) <= a)%Z ->
  Canvas_set (inject_Z a) (inject_Z j) r g b 1 c = (inl IndexError, c).
Proof.
  intros Hreach _ Hscale Hwrap HW Hj _ _ Ha.
  destruct (reachable_inv c Hreach) as [old (_ & Hshape & _)].
  destruct (unit_draw_wrapped c (inject_Z a) (inject_Z j) r g b 1 a j Hwrap Hj)
    as (f & Hf & E); try (now apply at_scale_1); [lia|].
  rewrite E. apply blend_fails. apply locate_outside_x; [exact Hshape | lia |].
  destruct (Z.ltb_spec a 0); lia.
Qed.

Lemma wrap_x_beyond_two_periods_witness :
  Canvas_set (inject_Z (-9)) (inject_Z 1) 1 (1 # 2) 0 1 painted_4x4
    = (inl IndexError, painted_4x4).
Proof.
  refine (wrap_x_beyond_two_periods painted_4x4 1 (1 # 2) 0 (-9) 1 _ _ _ _ _ _ _ _ _);
    try closed_bounds.
  - apply reachable_run_ops.
    apply (reachable_init null_4x4 None None true false). reflexivity.
  - left. closed_bounds.
Defined.

(** X11.  On a reachable canvas over a [NullDisplay], of scale 1, of
    width [W] and with [xwrap], [set(a, j, r, g, b, 1)] at a row [j] of
    the grid and an integer column [a] between one and two widths to the
    left of the grid returns: the column is moved by one width only, to
    [a + W], still negative; the buffer, indexed from its end, has
    [canvas[a + 2 W][j]] overwritten with the clamped colour and coverage
    1 and no other entry changed, and the display's [set] is called once,
    at the negative column [a + W]. *)
Theorem wrap_x_second_period_left (c : Canvas) (r g b : Q) (a j : Z) :
  reachable c ->
  class_ (_display c) = NullDisplay -> _scale c == 1 -> _xwrap c = true ->
  (0 <= j < height (_display c))%Z ->
  (Z.abs a < 2 ^ 52)%Z -> (j < 2 ^ 52)%Z ->
  (- (2 * width (_display c)) <= a < - width (_display c))%Z ->
  let W := width (_display c) in
  let run := Canvas_set (inject_Z a) (inject_Z j) r g b 1 c in
  fst run = inr tt /\
  pixel_overwritten c (snd run) (a + 2 * W) j
                    (clamp01 r) (clamp01 g) (clamp01 b) (a + W).
Proof.
  intros Hreach _ Hscale Hwrap Hj _ _ Ha W run.
  destruct (reachable_inv c Hreach) as [old (_ & Hshape & _)].
  assert ((a <? 0)%Z = true) as Hneg by (apply Z.ltb_lt; lia).
  destruct (unit_draw_wrapped_effect c r g b a j (a + 2 * W) Hreach Hscale Hwrap Hj)
    as (Hret & Hpix & _); [lia | subst W; lia | |].
  { rewrite Hneg.
    rewrite locate_negative_x; [|exact Hshape | lia | exact Hj].
    do 3 f_equal. subst W. lia. }
  rewrite Hneg in Hpix. split; [exact Hret | exact Hpix].
Qed.

Lemma wrap_x_second_period_left_witness :
  let c := painted_4x4 in
  let W := width (_display c) in
  let run := Canvas_set (inject_Z (-6)) (inject_Z 1) 1 (1 # 2) 0 1 c in
  fst run = inr tt /\
  pixel_overwritten c (snd run) (-6 + 2 * W) 1
                    (clamp01 1) (clamp01 (1 # 2)) (clamp01 0) (-6 + W).
Proof.
  refine (wrap_x_second_period_left painted_4x4 1 (1 # 2) 0 (-6) 1 _ _ _ _ _ _ _ _);
    try closed_bounds.
  apply reachable_run_ops.
  apply (reachable_init null_4x4 None None true false). reflexivity.
Defined.

(** ** One pixel of the grid *)

(** X12.  On a reachable canvas over a [NullDisplay] and of scale 1,
    [set(a, j, r, g, b, 1)] at integer coordinates [(a, j)] of the grid
    returns, leaves [canvas[a][j]] with the clamped colour and coverage 1
    whatever it held, leaves every other entry of the grid as it was, and
    makes exactly one call on the display, its [set] at [(a, j)] with the
    clamped colour. *)
Theorem exact_draw_effect (c : Canvas) (r g b : Q) (a j : Z) :
  reachable c ->
  class_ (_display c) = NullDisplay -> _scale c == 1 ->
  (0 <= a < width (_display c))%Z -> (0 <= j < height (_display c))%Z ->
  (a < 2 ^ 52)%Z -> (j < 2 ^ 52)%Z ->
  let run := Canvas_set (inject_Z a) (inject_Z j) r g b 1 c in
  fst run = inr tt /\
  pixel_at (snd run) a j = Some (mkPixel (clamp01 r) (clamp01 g) (clamp01 b) 1) /\
  (forall x' y',
     (0 <= x' < width (_display c))%Z -> (0 <= y' < height (_display c))%Z ->
     (x', y') <> (a, j) -> pixel_at (snd run) x' y' = pixel_at c x' y') /\
  calls (_display (snd run))
    = calls (_display c) ++ [CallSet a j (clamp01 r) (clamp01 g) (clamp01 b)].
Proof.
  intros Hreach _ Hscale Ha Hj _ _ run.
  destruct (reachable_inv c Hreach) as [old (_ & Hshape & _)].
  subst run.
  rewrite (Canvas_set_exact c (inject_Z a) (inject_Z j) r g b 1 a j);
    try (now apply at_scale_1); try assumption.
  cbn [fst snd]. split; [reflexivity|]. split; [|split; [|reflexivity]].
  - apply pixel_at_drawn. now apply locate_in_range.
  - intros x' y' Hx' Hy' Hne. apply frame_of_drawn; try assumption; lia.
Qed.

Lemma exact_draw_effect_witness :
  let c := painted_4x4 in
  let run := Canvas_set (inject_Z 3) (inject_Z 2) 2 (1 # 2) 0 1 c in
  fst run = inr tt /\
  pixel_at (snd run) 3 2
    = Some (mkPixel (clamp01 2) (clamp01 (1 # 2)) (clamp01 0) 1) /\
  (forall x' y',
     (0 <= x' < width (_display c))%Z -> (0 <= y' < height (_display c))%Z ->
     (x', y') <> (3, 2)%Z -> pixel_at (snd run) x' y' = pixel_at c x' y') /\
  calls (_display (snd run))
    = calls (_display c) ++ [CallSet 3 2 (clamp01 2) (clamp01 (1 # 2)) (clamp01 0)].
Proof.
  refine (exact_draw_effect painted_4x4 2 (1 # 2) 0 3 2 _ _ _ _ _ _ _);
    try closed_bounds.
  apply reachable_run_ops.
  apply (reachable_init null_4x4 None None true false). reflexivity.
Defined.

(** X13.  On a reachable canvas over a [NullDisplay] and of scale 1,
    repeating [set(a, j, r, g, b, 1)] at integer coordinates [(a, j)] of
    the grid returns and leaves the buffer as the first call left it,
    [canvas[a][j]] holding the clamped colour and coverage 1; the display
    has received the same [set] call twice. *)
Theorem exact_draw_twice (c : Canvas) (r g b : Q) (a j : Z) :
  reachable c ->
  class_ (_display c) = NullDisplay -> _scale c == 1 ->
  (0 <= a < width (_display c))%Z -> (0 <= j < height (_display c))%Z ->
  (a < 2 ^ 52)%Z -> (j < 2 ^ 52)%Z ->
  let c1 := snd (Canvas_set (inject_Z a) (inject_Z j) r g b 1 c) in
  let again := Canvas_set (inject_Z a) (inject_Z j) r g b 1 c1 in
  fst again = inr tt /\
  _canvas (snd again) = _canvas c1 /\
  pixel_at c1 a j = Some (mkPixel (clamp01 r) (clamp01 g) (clamp01 b) 1) /\
  calls (_display (snd again))
    = calls (_display c) ++ [CallSet a j (clamp01 r) (clamp01 g) (clamp01 b);
                             CallSet a j (clamp01 r) (clamp01 g) (clamp01 b)].
Proof.
  intros Hreach _ Hscale Ha Hj _ _ c1 again.
  destruct (reachable_inv c Hreach) as [old (_ & Hshape & _)].
  subst again c1.
  rewrite (Canvas_set_exact c (inject_Z a) (inject_Z j) r g b 1 a j);
    try (now apply at_scale_1); try assumption.
  cbn [snd].
  rewrite (Canvas_set_exact _ (inject_Z a) (inject_Z j) r g b 1 a j);
    [ | now apply drawn_shape_inv | now apply (at_scale_1 c).. | assumption | assumption].
  cbn [fst snd]. split; [reflexivity|]. split; [|split].
  - unfold drawn. cbn [_canvas]. apply write_write.
  - apply pixel_at_drawn. now apply locate_in_range.
  - cbn. now rewrite <- app_assoc.
Qed.

Lemma exact_draw_twice_witness :
  let c := painted_4x4 in
  let c1 := snd (Canvas_set (inject_Z 3) (inject_Z 2) 2 (1 # 2) 0 1 c) in
  let again := Canvas_set (inject_Z 3) (inject_Z 2) 2 (1 # 2) 0 1 c1 in
  fst again = inr tt /\
  _canvas (snd again) = _canvas c1 /\
  pixel_at c1 3 2 = Some (mkPixel (clamp01 2) (clamp01 (1 # 2)) (clamp01 0) 1) /\
  calls (_display (snd again))
    = calls (_display c) ++ [CallSet 3 2 (clamp01 2) (clamp01 (1 # 2)) (clamp01 0);
                             CallSet 3 2 (clamp01 2) (clamp01 (1 # 2)) (clamp01 0)].
Proof.
  refine (exact_draw_twice painted_4x4 2 (1 # 2) 0 3 2 _ _ _ _ _ _ _);
    try closed_bounds.
  apply reachable_run_ops.
  apply (reachable_init null_4x4 None None true false). reflexivity.
Defined.

(** ** Less than a pixel *)

(** X14.  On a reachable canvas over a [NullDisplay] and of scale 1, a
    [set] call whose side [s] is strictly between 0 and 1 and whose
    centre [(x, y)] is on the grid returns, touches only the entry of the
    cell holding the centre, [(int(x), int(y))], and makes exactly one
    call on the display, its [set] at that cell; if that entry had
    coverage 0 it ends, in exact arithmetic, with coverage [s^2] and that
    fraction of the clamped colour. *)
Theorem subpixel_draw_effect (c : Canvas) (x y r g b s : Q) :
  reachable c ->
  class_ (_display c) = NullDisplay -> _scale c == 1 ->
  0 < s -> s < 1 ->
  0 <= x -> x < inject_Z (width (_display c)) ->
  0 <= y -> y < inject_Z (height (_display c)) ->
  let run := Canvas_set x y r g b s c in
  let px := Py.int x in
  let py := Py.int y in
  fst run = inr tt /\
  (0 <= px < width (_display c))%Z /\ (0 <= py < height (_display c))%Z /\
  (forall x' y',
     (0 <= x' < width (_display c))%Z -> (0 <= y' < height (_display c))%Z ->
     (x', y') <> (px, py) -> pixel_at (snd run) x' y' = pixel_at c x' y') /\
  (exists pushed, calls (_display (snd run)) = calls (_display c) ++ [CallSet px py
     (fst (fst pushed)) (snd (fst pushed)) (snd pushed)]) /\
  (forall p, pixel_at c px py = Some p -> pf p == 0 ->
     exists q, pixel_at (snd run) px py = Some q /\
               pixel_eq q (mkPixel (s ^ 2 * clamp01 r) (s ^ 2 * clamp01 g)
                                   (s ^ 2 * clamp01 b) (s ^ 2))).
Proof.
  intros Hreach _ Hscale Hs0 Hs1 Hx0 Hx1 Hy0 Hy1 run px py.
  destruct (reachable_inv c Hreach) as [old (Hbuf & Hshape & _)].
  pose proof (at_scale_1 c s Hscale) as Es.
  pose proof (at_scale_1 c x Hscale) as Ex.
  pose proof (at_scale_1 c y Hscale) as Ey.
  pose proof (int_in_bounds _ _ Hx0 Hx1) as Hpx.
  pose proof (int_in_bounds _ _ Hy0 Hy1) as Hpy.
  fold px in Hpx. fold py in Hpy.
  subst run. rewrite Canvas_set_subpixel by (rewrite ?Es, ?Ex, ?Ey; assumption).
  rewrite (int_comp _ _ Ex), (int_comp _ _ Ey). fold px py.
  assert (locate (_canvas c) px py = Some (Z.to_nat px, Z.to_nat py))
    as Hloc by now apply locate_in_range.
  rewrite (blend_run c _ _ _ _ _ _ _ Hloc). cbn [fst snd].
  split; [reflexivity|]. split; [exact Hpx|]. split; [exact Hpy|].
  split; [|split].
  - intros x' y' Hx' Hy' Hne. apply frame_of_drawn; try assumption; lia.
  - eexists. unfold call_set. cbn. reflexivity.
  - intros p Hp H0. eexists. split; [now apply pixel_at_drawn|].
    unfold pixel_at in Hp. rewrite Hloc in Hp. injection Hp as <-.
    assert ((s * _scale c) ^ 2 == s ^ 2) as Ef by (now rewrite Es).
    pose proof (composite_on_empty ((s * _scale c) ^ 2)
                  (clamp01 r) (clamp01 g) (clamp01 b)
                  (read (_canvas c) (Z.to_nat px, Z.to_nat py))) as Hcomp.
    destruct Hcomp as (Hr & Hg & Hb & Hf); try apply clamp01_range;
      try assumption.
    + rewrite Ef. now apply square_below_1.
    + now apply read_inv.
    + cbn [pr pg pb pf] in Hr, Hg, Hb, Hf.
      unfold pixel_eq. cbn [pr pg pb pf].
      rewrite Hr, Hg, Hb, Hf, Ef. repeat split; reflexivity.
Qed.

Lemma subpixel_draw_effect_witness :
  let c := canvas_4x4 false false in
  let run := Canvas_set (5 # 2) (1 # 4) 1 (1 # 2) 0 (1 # 2) c in
  let px := Py.int (5 # 2) in
  let py := Py.int (1 # 4) in
  fst run = inr tt /\
  (0 <= px < width (_display c))%Z /\ (0 <= py < height (_display c))%Z /\
  (forall x' y',
     (0 <= x' < width (_display c))%Z -> (0 <= y' < height (_display c))%Z ->
     (x', y') <> (px, py) -> pixel_at (snd run) x' y' = pixel_at c x' y') /\
  (exists pushed, calls (_display (snd run)) = calls (_display c) ++ [CallSet px py
     (fst (fst pushed)) (snd (fst pushed)) (snd pushed)]) /\
  (forall p, pixel_at c px py = Some p -> pf p == 0 ->
     exists q, pixel_at (snd run) px py = Some q /\
               pixel_eq q (mkPixel ((1 # 2) ^ 2 * clamp01 1)
                                   ((1 # 2) ^ 2 * clamp01 (1 # 2))
                                   ((1 # 2) ^ 2 * clamp01 0) ((1 # 2) ^ 2))).
Proof.
  refine (subpixel_draw_effect (canvas_4x4 false false)
            (5 # 2) (1 # 4) 1 (1 # 2) 0 (1 # 2) _ _ _ _ _ _ _ _ _);
    try closed_bounds.
  apply (reachable_init null_4x4 None None false false). reflexivity.
Defined.

(** ** A whole image *)

(** X15.  On a reachable canvas over a [NullDisplay] and of scale 1,
    [set_image] with an RGB image of the width and height of the grid,
    both below [2 ^ 52], returns and leaves, in every entry of the
    buffer, coverage 1 and the colour of the image pixel at the same
    coordinates, each band divided by 255 in exact arithmetic and
    clamped. *)
Theorem set_image_of_grid_size_copies_it (c : Canvas) (image : Image) :
  reachable c ->
  class_ (_display c) = NullDisplay -> _scale c == 1 ->
  rgb_bytes image ->
  size image = get_shape (_display c) ->
  (0 < width (_display c) < 2 ^ 52)%Z -> (0 < height (_display c) < 2 ^ 52)%Z ->
  fst (Canvas_set_image image c) = inr tt /\
  forall x y,
    (0 <= x < width (_display c))%Z -> (0 <= y < height (_display c))%Z ->
    pixel_at (snd (Canvas_set_image image c)) x y
      = Some (image_entry (getpixel image (x, y))).
Proof.
  intros Hreach _ Hscale _ Hsize [HW _] [HH _].
  destruct (reachable_inv c Hreach) as [old (_ & Hshape & _)].
  unfold Canvas_set_image, bind, gets, id.
  rewrite Hsize. unfold get_shape. fold (width (_display c)).
  change (_width (_display c)) with (width (_display c)).
  change (_height (_display c)) with (height (_display c)).
  set (W := width (_display c)) in *. set (H := height (_display c)) in *.
  assert ((W <=? 0)%Z || (H <=? 0)%Z = false) as ->.
  { apply orb_false_iff. split; apply Z.leb_gt; assumption. }
  pose proof (Qdiv_same W HW) as Hsw. pose proof (Qdiv_same H HH) as Hsh.
  set (sw := inject_Z W / inject_Z W) in *.
  set (sh := inject_Z H / inject_Z H) in *.
  assert (Py.max sw sh == 1) as Hmax
    by (destruct (max_spec sw sh) as [[? ->]|[? ->]]; lra).
  assert (Py.Qltb 1 (Py.max sw sh) = false) as -> by (apply Qltb_ge; lra).
  set (sz := Py.max sw sh) in *.
  assert (copying image W H (_scale c) (fun x _ => In x []) c) as Hstart.
  { split; [exact Hshape|]. split; [reflexivity|]. split; [reflexivity|].
    split; [reflexivity|]. intros x y _ _ []. }
  match goal with |- fst (for_ ?l ?body c) = _ /\ _ =>
    assert (forall pre ix c1, In ix l ->
              copying image W H (_scale c) (fun x _ => In x pre) c1 ->
              fst (body ix c1) = inr tt /\
              copying image W H (_scale c) (fun x _ => In x (pre ++ [ix]))
                      (snd (body ix c1))) as Hcolumn
  end.
  { intros pre ix c1 Hix Hc1. apply in_range in Hix. cbv beta.
    match goal with |- fst (for_ ?l ?body c1) = _ /\ _ =>
      assert (forall pre_y iy c2, In iy l ->
                copying image W H (_scale c)
                  (fun x y => In x pre \/ (x = ix /\ In y pre_y)) c2 ->
                fst (body iy c2) = inr tt /\
                copying image W H (_scale c)
                  (fun x y => In x pre \/ (x = ix /\ In y (pre_y ++ [iy])))
                  (snd (body iy c2))) as Hcell
    end.
    { intros pre_y iy c2 Hiy Hc2. apply in_range in Hiy. cbv beta zeta.
      rewrite (round_of_integer (inject_Z ix * sw) ix) by (rewrite Hsw; ring).
      rewrite (round_of_integer (inject_Z iy * sh) iy) by (rewrite Hsh; ring).
      pose proof (copying_step image W H (_scale c) _ c2
                    (inject_Z ix) (inject_Z iy) sz ix iy Hc2) as Hstep.
      destruct (getpixel image (ix, iy)) as [[rgb0 rgb1] rgb2] eqn:Ergb.
      cbn [fst snd] in Hstep.
      destruct Hstep as [Hr Hc3]; try lia;
        try (rewrite ?Hmax, Hscale; ring).
      split; [exact Hr|].
      eapply copying_weaken; [|exact Hc3].
      intros x y _ _ [Hin|[-> Hin]]; [left; now left|].
      apply in_app_iff in Hin as [Hin|[<-|[]]];
        [left; right; tauto | right; tauto]. }
    destruct (for_accumulates
                (fun pre_y => copying image W H (_scale c)
                   (fun x y => In x pre \/ (x = ix /\ In y pre_y)))
                _ _ Hcell [] c1) as [Hret Hend].
    { eapply copying_weaken; [|exact Hc1].
      intros x y _ _ [Hin|[_ []]]. exact Hin. }
    split; [exact Hret|].
    eapply copying_weaken; [|exact Hend].
    intros x y _ Hy Hin. cbn [app].
    apply in_app_iff in Hin as [Hin|[<-|[]]]; [now left|].
    right. split; [reflexivity|]. apply in_range. lia. }
  destruct (for_accumulates
              (fun pre => copying image W H (_scale c) (fun x _ => In x pre))
              _ _ Hcolumn [] c Hstart) as [Hret Hend].
  split; [exact Hret|]. intros x y Hx Hy.
  destruct Hend as (_ & _ & _ & _ & Hpix). apply Hpix; try assumption.
  cbn [app]. apply in_range. lia.
Qed.

Lemma set_image_of_grid_size_copies_it_witness :
  fst (Canvas_set_image (image_of 4 4) painted_4x4) = inr tt /\
  forall x y,
    (0 <= x < width (_display painted_4x4))%Z ->
    (0 <= y < height (_display painted_4x4))%Z ->
    pixel_at (snd (Canvas_set_image (image_of 4 4) painted_4x4)) x y
      = Some (image_entry (getpixel (image_of 4 4) (x, y))).
Proof.
  apply (set_image_of_grid_size_copies_it painted_4x4 (image_of 4 4));
    try closed_bounds.
  - apply reachable_run_ops.
    apply (reachable_init null_4x4 None None true false). reflexivity.
  - apply image_of_bytes.
Defined.
